(** * utilityHelperFunctions.ts: [find] and [match]

    A shallow embedding of the directory walk [find] and of the pattern
    filter [match] of [packages/utility/src/utilityHelperFunctions.ts],
    with the properties their description states.

    Conventions.
    - A JavaScript string is a sequence of UTF-16 code units; a [string]
      here is such a sequence with every code unit below 256, one [ascii]
      per code unit.
    - A JavaScript exception is a value [Throw e] of the type [outcome].
    - [core.debug] only writes log lines; it is left out.
    - Node's [fs], [path] and the [minimatch] package are the environment:
      they are the fields of the classes [Host], [FileSystem] and
      [Minimatch], and every theorem holds for every instance. *)

From Stdlib Require Import String Ascii NArith Arith Lia.
From stdpp Require Import base option list strings gmap.

Set Default Proof Using "Type".
Set Warnings "-register-all".

(** ** JavaScript values *)

(** An exception object: [code] and [epath] are the properties Node's [fs]
    sets on its errors ([err.code], [err.path]); [new Error(msg)] has
    neither. *)
Record JsError := mkJsError {
  code : option string;
  epath : option string;
  message : string
}.

Definition new_Error (msg : string) : JsError :=
  {| code := None; epath := None; message := msg |}.

Inductive outcome (A : Type) : Type :=
| Ret (a : A)
| Throw (e : JsError).
Arguments Ret {A} a.
Arguments Throw {A} e.

Global Instance outcome_ret : MRet outcome := fun A a => Ret a.

Global Instance outcome_bind : MBind outcome := fun A B k m =>
  match m with
  | Ret a => k a
  | Throw e => Throw e
  end.

(** [for (let x of xs) { acc = body(acc, x) }] where the body may throw. *)
Fixpoint for_of {A S} (body : S -> A -> outcome S) (xs : list A) (acc : S)
  : outcome S :=
  match xs with
  | [] => Ret acc
  | x :: xs' => acc' ← body acc x; for_of body xs' acc'
  end.

(** [xs.filter(cb)] where the callback may throw. *)
Fixpoint array_filter {A} (cb : A -> outcome bool) (xs : list A)
  : outcome (list A) :=
  match xs with
  | [] => Ret []
  | x :: xs' =>
      keep ← cb x;
      rest ← array_filter cb xs';
      Ret (if (keep : bool) then x :: rest else rest)
  end.

(** *** Strings *)

(** The code units below 256 that [String.prototype.trim] strips: TAB, LF,
    VT, FF, CR, SP and NBSP. *)
Definition is_white_space (c : ascii) : bool :=
  let n := N_of_ascii c in
  (((9 <=? n) && (n <=? 13)) || (n =? 32) || (n =? 160))%N.

Fixpoint trimStart (s : string) : string :=
  match s with
  | EmptyString => EmptyString
  | String c r => if is_white_space c then trimStart r else s
  end.

Fixpoint trimEnd (s : string) : string :=
  match s with
  | EmptyString => EmptyString
  | String c r =>
      match trimEnd r with
      | EmptyString => if is_white_space c then EmptyString else String c EmptyString
      | r' => String c r'
      end
  end.

Definition trim (s : string) : string := trimEnd (trimStart s).

(** [s.slice(0, n)] *)
Definition slice_to (n : nat) (s : string) : string := String.substring 0 n s.

(** [s.slice(-n)]; [s.slice(-0)] is [s.slice(0)], the whole string. *)
Definition slice_last (n : nat) (s : string) : string :=
  if (n =? 0)%nat then s else String.substring (String.length s - n) n s.

(** [s.substring(n)] *)
Fixpoint substring_from (n : nat) (s : string) : string :=
  match n, s with
  | S n', String _ r => substring_from n' r
  | _, _ => s
  end.

(** [s.indexOf(t) >= 0] *)
Definition includes (t s : string) : bool :=
  match String.index 0 t s with Some _ => true | None => false end.

(** [s.replace(/a/g, b)] for single code units [a] and [b]. *)
Fixpoint replace_all (a b : ascii) (s : string) : string :=
  match s with
  | EmptyString => EmptyString
  | String c r => String (if Ascii.eqb c a then b else c) (replace_all a b r)
  end.

(** [s.replace(/aa+/g, a)]: every run of two or more [a] becomes one [a]. *)
Fixpoint collapse_runs (a : ascii) (s : string) : string :=
  match s with
  | EmptyString => EmptyString
  | String c r =>
      match r with
      | String d _ =>
          if Ascii.eqb c a && Ascii.eqb d a then collapse_runs a r
          else String c (collapse_runs a r)
      | EmptyString => String c EmptyString
      end
  end.

(** [/[A-Z]/i] on one code unit. *)
Definition is_letter (c : ascii) : bool :=
  let n := N_of_ascii c in
  (((65 <=? n) && (n <=? 90)) || ((97 <=? n) && (n <=? 122)))%N.

(** [/^[A-Z]:/i.test(s)] *)
Definition test_drive_prefix (s : string) : bool :=
  match s with
  | String c (String ":" _) => is_letter c
  | _ => false
  end.

(** [/^[A-Z]:$/i] *)
Definition test_drive_only (s : string) : bool :=
  match s with
  | String c (String ":" EmptyString) => is_letter c
  | _ => false
  end.

(** [/^\\\\+[^\\]/.test(s)]: two or more backslashes, then another code
    unit. *)
Fixpoint after_backslashes (s : string) : bool :=
  match s with
  | EmptyString => false
  | String c r => if Ascii.eqb c "\" then after_backslashes r else true
  end.

Definition test_unc (s : string) : bool :=
  match s with
  | String "\" (String "\" r) => after_backslashes r
  | _ => false
  end.

(** *** Objects used as dictionaries

    [let map = {}] is an ordinary object: its own properties are a finite
    map, and it inherits from [Object.prototype]. Two keys are special for
    the operations [match] performs. Assigning [map["__proto__"] = true]
    runs the inherited [__proto__] setter, which ignores a value that is
    not an object, so no own property appears. And [map.hasOwnProperty]
    reads the property of that name: once the key ["hasOwnProperty"] has
    been assigned it is the own value [true], and calling it throws a
    [TypeError]. *)
Abbreviation JsObject := (gmap string bool).

Definition obj_set (k : string) (v : bool) (o : JsObject) : JsObject :=
  if decide (k = "__proto__") then o else <[k := v]> o.

Definition obj_delete (k : string) (o : JsObject) : JsObject := delete k o.

Definition not_a_function : JsError :=
  new_Error "map.hasOwnProperty is not a function".

Definition obj_hasOwnProperty (o : JsObject) (k : string) : outcome bool :=
  match o !! "hasOwnProperty" with
  | Some _ => Throw not_a_function
  | None => Ret (bool_decide (is_Some (o !! k)))
  end.

(** *** Arrays used as stacks: [push] appends, [pop] takes the last
    element. *)
Definition push {A} (x : A) (stack : list A) : list A := stack ++ [x].

Definition pop {A} (stack : list A) : option (A * list A) :=
  match rev stack with
  | [] => None
  | x :: r => Some (x, rev r)
  end.

(** ** The environment *)

(** [process.platform == 'win32'] *)
Class Host := { win32 : bool }.

(** [path.sep] *)
Definition path_sep `{Host} : string := if win32 then "\" else "/".

Inductive FileType := Regular | Directory | SymbolicLink | OtherFile.

Global Instance FileType_eq_dec : EqDecision FileType.
Proof. solve_decision. Defined.

(** [fs.Stats]: the file type is one field of the mode, so at most one of
    [isDirectory()] and [isSymbolicLink()] holds. *)
Record Stats := { ftype : FileType }.

Definition isDirectory (st : Stats) : bool := bool_decide (ftype st = Directory).
Definition isSymbolicLink (st : Stats) : bool :=
  bool_decide (ftype st = SymbolicLink).

(** The file system as [find] sees it: a snapshot that does not change
    during one call. [lstatSync] describes the entry itself, [statSync]
    the entry a chain of links leads to. *)
Class FileSystem := {
  normalize : string -> string;
  join : string -> string -> string;
  lstatSync : string -> outcome Stats;
  statSync : string -> outcome Stats;
  readdirSync : string -> outcome (list string)
}.

(** A call of [find] into [fs], for the record of calls a run makes. *)
Inductive FsCall :=
| Lstat (p : string)
| Stat (p : string)
| Readdir (p : string).

(** The exception a call raises, if it raises one. *)
Definition call_error `{FileSystem} (c : FsCall) : option JsError :=
  match c with
  | Lstat p => match lstatSync p with Throw e => Some e | Ret _ => None end
  | Stat p => match statSync p with Throw e => Some e | Ret _ => None end
  | Readdir p => match readdirSync p with Throw e => Some e | Ret _ => None end
  end.

(** ** [find] *)

Record _FindItem := new_FindItem { path : string; level : nat }.

Section Find.
Context `{FileSystem}.

(** [for (var i = childItems.length - 1; i >= 0; i--) stack.push(childItems[i])] *)
Definition push_reversed (childItems stack : list _FindItem) : list _FindItem :=
  fold_left (fun st item => push item st) (rev childItems) stack.

(** The [while (stack.length)] loop. [fuel] bounds the number of
    iterations; [None] means the bound was reached with entries still
    queued. [calls] is the record of the [fs] calls made so far. *)
Fixpoint find_loop (fuel : nat) (stack : list _FindItem) (result : list string)
    (calls : list FsCall) : list FsCall * option (outcome (list string)) :=
  match pop stack with
  | None => (calls, Some (Ret result))
  | Some (item, stack) =>
      match fuel with
      | O => (calls, None)
      | S fuel =>
          let result := result ++ [path item] in
          let calls := calls ++ [Lstat (path item)] in
          match lstatSync (path item) with
          | Throw err => (calls, Some (Throw err))
          | Ret stats =>
              if isDirectory stats then
                let childLevel := level item + 1 in
                let calls := calls ++ [Readdir (path item)] in
                match readdirSync (path item) with
                | Throw err => (calls, Some (Throw err))
                | Ret names =>
                    let childItems :=
                      map (fun childName =>
                             new_FindItem (join (path item) childName) childLevel)
                          names in
                    find_loop fuel (push_reversed childItems stack) result calls
                end
              else find_loop fuel stack result calls
          end
      end
  end.

Definition find (fuel : nat) (findPath : string)
  : list FsCall * option (outcome (list string)) :=
  if decide (findPath = "") then ([], Some (Ret []))
  else
    let findPath := normalize findPath in
    match lstatSync findPath with
    | Throw err =>
        if decide (code err = Some "ENOENT")
        then ([Lstat findPath], Some (Ret []))
        else ([Lstat findPath], Some (Throw err))
    | Ret _ =>
        match find_loop fuel [new_FindItem findPath 1] [] [Lstat findPath] with
        | (calls, Some (Throw err)) =>
            (calls, Some (Throw (new_Error ("Failed find: " +:+ message err))))
        | r => r
        end
    end.
End Find.

(** *** Directory trees

    The tree a snapshot holds below a path: a directory with its named
    entries in the order [readdirSync] lists them, or an entry of another
    type, which has no entries of its own for [find]. *)
Inductive node :=
| Entry (t : FileType)
| Dir (entries : list (string * node)).

Fixpoint size (t : node) : nat :=
  match t with
  | Entry _ => 1
  | Dir entries => S (list_sum (map (fun e => size (snd e)) entries))
  end.

(** The paths of a tree in pre-order: a directory, then the paths of its
    first entry, then those of its second, and so on. One element per node
    of the tree. *)
Fixpoint walk `{FileSystem} (p : string) (t : node) : list string :=
  match t with
  | Entry _ => [p]
  | Dir entries => p :: flat_map (fun e => walk (join p (fst e)) (snd e)) entries
  end.

(** [hosts p t]: the snapshot holds the tree [t] at the path [p]. *)
Inductive hosts `{FileSystem} : string -> node -> Prop :=
| hosts_entry p ft :
    ft <> Directory ->
    lstatSync p = Ret {| ftype := ft |} ->
    hosts p (Entry ft)
| hosts_dir p entries :
    lstatSync p = Ret {| ftype := Directory |} ->
    readdirSync p = Ret (map fst entries) ->
    Forall (fun e => hosts (join p (fst e)) (snd e)) entries ->
    hosts p (Dir entries).

(** [within p t d entries]: [d] is the path of a directory of the tree [t]
    rooted at [p], and [entries] are its entries. *)
Inductive within `{FileSystem} : string -> node -> string -> list (string * node) -> Prop :=
| within_here p entries : within p (Dir entries) p entries
| within_below p entries e d es :
    e ∈ entries ->
    within (join p (fst e)) (snd e) d es ->
    within p (Dir entries) d es.

(** [occurs p t q]: [q] is the path of a node of the tree [t] rooted at
    [p]. *)
Inductive occurs `{FileSystem} : string -> node -> string -> Prop :=
| occurs_here p t : occurs p t p
| occurs_below p entries e q :
    e ∈ entries ->
    occurs (join p (fst e)) (snd e) q ->
    occurs p (Dir entries) q.

(** *** Notions for the properties of [find] *)

Section FindNotions.
Context `{FileSystem}.

(** The entries still to visit, first the next one, each with the tree
    the snapshot holds at it. *)
Definition queue_stack (queue : list (_FindItem * node)) : list _FindItem :=
  rev (map fst queue).

Definition queue_size (queue : list (_FindItem * node)) : nat :=
  list_sum (map (fun x => size (snd x)) queue).

(** The path a call is made on. *)
Definition call_path (c : FsCall) : string :=
  match c with
  | Lstat p => p
  | Stat p => p
  | Readdir p => p
  end.

(** Every call the loop adds is an [lstatSync], or a [readdirSync] of a
    path whose own status is that of a directory. *)
Definition link_aware (c : FsCall) : Prop :=
  match c with
  | Lstat _ => True
  | Stat _ => False
  | Readdir p => exists st, lstatSync p = Ret st /\ ftype st = Directory
  end.

(** The state of a run as far as failures go: either no call has failed
    and nothing was thrown, or the last call failed, no earlier one did,
    and its exception is the one thrown. *)
Definition failure_state (r : list FsCall * option (outcome (list string)))
  : Prop :=
  (Forall (fun c => call_error c = None) (fst r)
   /\ forall cause, snd r <> Some (Throw cause))
  \/ (exists before c cause,
        fst r = before ++ [c]
        /\ Forall (fun c => call_error c = None) before
        /\ call_error c = Some cause
        /\ snd r = Some (Throw cause)).
End FindNotions.

(** ** [match] *)

(** The flags are optional in the source; a missing flag is [undefined],
    which every test in [match] treats as [false]. *)
Record MatchOptions := {
  debug : bool;
  nobrace : bool;
  noglobstar : bool;
  dot : bool;
  noext : bool;
  nocase : bool;
  nonull : bool;
  matchBase : bool;
  nocomment : bool;
  nonegate : bool;
  flipNegate : bool
}.

(** The [minimatch] package: [minimatch.match(list, pattern, options)] and
    [minimatch.braceExpand(pattern)], on patterns that the package accepts.
    It refuses a pattern of more than 64 KB with a [TypeError]; such
    patterns are outside this model, where both functions return. *)
Class Minimatch := {
  minimatch_match : list string -> string -> MatchOptions -> list string;
  braceExpand : string -> list string
}.

(** The parameter [patterns: string[] | string]. *)
Inductive patterns_arg :=
| OnePattern (pattern : string)
| Patterns (patterns : list string).

Definition dquote : string := String (ascii_of_nat 34) EmptyString.

Definition _startsWith (str start : string) : bool :=
  bool_decide (slice_to (String.length start) str = start).

Definition _endsWith (str end_ : string) : bool :=
  bool_decide (slice_last (String.length end_) str = end_).

(** [while (pattern.charAt(negateCount) == '!') negateCount++] *)
Fixpoint count_bangs (pattern : string) : nat :=
  match pattern with
  | String "!" r => S (count_bangs r)
  | _ => 0
  end.

(** [negateCount == 0 || (negateCount % 2 == 0 && !options.flipNegate) ||
    (negateCount % 2 == 1 && options.flipNegate)] *)
Definition isIncludePattern (negateCount : nat) (flipNegate : bool) : bool :=
  (negateCount =? 0)%nat
  || ((negateCount mod 2 =? 0)%nat && negb flipNegate)
  || ((negateCount mod 2 =? 1)%nat && flipNegate).

Definition _cloneMatchOptions (matchOptions : MatchOptions) : MatchOptions :=
  {| debug := debug matchOptions;
     nobrace := nobrace matchOptions;
     noglobstar := noglobstar matchOptions;
     dot := dot matchOptions;
     noext := noext matchOptions;
     nocase := nocase matchOptions;
     nonull := nonull matchOptions;
     matchBase := matchBase matchOptions;
     nocomment := nocomment matchOptions;
     nonegate := nonegate matchOptions;
     flipNegate := flipNegate matchOptions |}.

(** The options [minimatch.match] receives: the caller's, with
    [nocomment], [nonegate] and [nobrace] set and [flipNegate] cleared, as
    the assignments in the loop body leave them. *)
Definition locked (options : MatchOptions) : MatchOptions :=
  {| debug := debug options;
     nobrace := true;
     noglobstar := noglobstar options;
     dot := dot options;
     noext := noext options;
     nocase := nocase options;
     nonull := nonull options;
     matchBase := matchBase options;
     nocomment := true;
     nonegate := true;
     flipNegate := false |}.

Section Match.
Context `{Host} `{Minimatch}.

Definition _getDefaultMatchOptions : MatchOptions :=
  {| debug := false;
     nobrace := true;
     noglobstar := false;
     dot := true;
     noext := false;
     nocase := win32;
     nonull := false;
     matchBase := false;
     nocomment := false;
     nonegate := false;
     flipNegate := false |}.

Definition _normalizeSeparators (p : string) : string :=
  if win32 then
    let p := replace_all "/" "\" p in
    let isUnc := test_unc p in
    (if isUnc then "\" else "") +:+ collapse_runs "\" p
  else collapse_runs "/" p.

Definition _isRooted (p : string) : outcome bool :=
  let p := _normalizeSeparators p in
  if decide (p = "") then
    Throw (new_Error ("isRooted() parameter " +:+ dquote +:+ "p" +:+ dquote
                      +:+ " cannot be empty"))
  else if win32 then Ret (_startsWith p "\" || test_drive_prefix p)
  else Ret (_startsWith p "/").

Definition _ensureRooted (root p : string) : outcome string :=
  if decide (root = "") then
    Throw (new_Error ("ensureRooted() parameter " +:+ dquote +:+ "root"
                      +:+ dquote +:+ " cannot be empty"))
  else if decide (p = "") then
    Throw (new_Error ("ensureRooted() parameter " +:+ dquote +:+ "p"
                      +:+ dquote +:+ " cannot be empty"))
  else
    rooted ← _isRooted p;
    if (rooted : bool) then Ret p
    else if win32 && test_drive_only root then Ret (root +:+ p)
    else if _endsWith root "/" || (win32 && _endsWith root "\")
         then Ret (root +:+ p)
         else Ret ((root +:+ path_sep) +:+ p).

(** Lines 307 to 315: the pattern is rooted when [patternRoot] is
    supplied, the pattern is not rooted, and [matchBase] is off or the
    pattern has a separator. *)
Definition root_pattern (patternRoot : option string) (options : MatchOptions)
    (pattern : string) : outcome string :=
  match patternRoot with
  | None => Ret pattern
  | Some root =>
      if decide (root = "") then Ret pattern
      else
        rooted ← _isRooted pattern;
        if negb rooted
           && (negb (matchBase options)
               || includes "/" (if win32 then replace_all "\" "/" pattern
                                else pattern))
        then _ensureRooted root pattern
        else Ret pattern
  end.

(** The body of the inner loop, lines 295 to 339, for one expanded
    pattern. *)
Definition match_expanded (list : list string) (patternRoot : option string)
    (options : MatchOptions) (isInclude : bool) (map : JsObject)
    (pattern : string) : outcome JsObject :=
  let pattern := trim pattern in
  if decide (pattern = "") then Ret map
  else
    pattern ← root_pattern patternRoot options pattern;
    let matchResults := minimatch_match list pattern options in
    if isInclude then
      Ret (fold_left (fun map matchResult => obj_set matchResult true map)
                     matchResults map)
    else
      Ret (fold_left (fun map matchResult => obj_delete matchResult map)
                     matchResults map).

(** Lines 279 to 290: the expansion of braces, skipped under [nobrace]. *)
Definition expand_braces (options : MatchOptions) (pattern : string)
  : Datatypes.list string :=
  if nobrace options then [pattern]
  else braceExpand (if win32 then replace_all "\" "/" pattern else pattern).

(** The body of the outer loop, lines 235 to 340, for one pattern. *)
Definition match_pattern (list : list string) (patternRoot : option string)
    (originalOptions : MatchOptions) (map : JsObject) (pattern : string)
  : outcome JsObject :=
  let pattern := trim pattern in
  if decide (pattern = "") then Ret map
  else
    let options := _cloneMatchOptions originalOptions in
    if negb (nocomment options) && _startsWith pattern "#" then Ret map
    else
      let '(negateCount, pattern) :=
        if negb (nonegate options)
        then (count_bangs pattern, substring_from (count_bangs pattern) pattern)
        else (0, pattern) in
      let isInclude := isIncludePattern negateCount (flipNegate options) in
      let expanded := expand_braces options pattern in
      for_of (match_expanded list patternRoot (locked options) isInclude)
             expanded map.

Definition match_ (list : list string) (patterns : patterns_arg)
    (patternRoot : option string) (options : option MatchOptions)
  : outcome (Datatypes.list string) :=
  let options := default _getDefaultMatchOptions options in
  let patterns :=
    match patterns with
    | OnePattern pattern => [pattern]
    | Patterns patterns => patterns
    end in
  map ← for_of (match_pattern list patternRoot options) patterns ∅;
  array_filter (fun item => obj_hasOwnProperty map item) list.
End Match.

(** *** Notions for the properties of [match] *)

(** The path starts as a rooted path does: with [/], or on win32 with [/],
    a backslash or a drive letter and a colon. *)
Definition starts_rooted `{Host} (p : string) : bool :=
  match p with
  | EmptyString => false
  | String c _ =>
      if win32 then Ascii.eqb c "/" || Ascii.eqb c "\" || test_drive_prefix p
      else Ascii.eqb c "/"
  end.

(** The root ends in a separator of the platform. *)
Definition ends_in_separator `{Host} (root : string) : Prop :=
  (exists r, root = r +:+ "/") \/ (win32 = true /\ exists r, root = r +:+ "\").

(** A bare drive-letter root: a letter and a colon, on the platform that
    has drive letters. *)
Definition bare_drive_letter `{Host} (root : string) : Prop :=
  win32 = true /\ exists c, is_letter c = true /\ root = String c ":".

(** Two maps have the same entry for every path of both lists. *)
Definition agree (list1 list2 : list string) (map1 map2 : JsObject) : Prop :=
  forall k, k ∈ list1 -> k ∈ list2 -> map1 !! k = map2 !! k.

(** Every key of the map is a path of the list. *)
Definition keys_within (list : list string) (map : JsObject) : Prop :=
  forall k, is_Some (map !! k) -> k ∈ list.

(** [minimatch.match], with [nonull] off, keeps the paths that pass a test
    of the path alone. *)
Definition per_path `{Minimatch} (test : string -> MatchOptions -> string -> bool)
  : Prop :=
  forall list pattern options,
    nonull options = false ->
    minimatch_match list pattern options
    = filter (fun f => test pattern options f = true) list.


(** ** Concrete environments for the examples *)

Definition posix : Host := {| win32 := false |}.
Definition windows : Host := {| win32 := true |}.

Fixpoint assoc {A} (k : string) (table : list (string * A)) : option A :=
  match table with
  | [] => None
  | (k', v) :: table' => if decide (k = k') then Some v else assoc k table'
  end.

(** The error Node raises for a missing entry. *)
Definition ENOENT (syscall p : string) : JsError :=
  {| code := Some "ENOENT";
     epath := Some p;
     message := "ENOENT: no such file or directory, " +:+ syscall +:+ " '" +:+ p +:+ "'" |}.

(** A snapshot given by three tables; every other path is missing. The
    paths of the examples are normalized already. *)
Definition table_fs (types followed : list (string * FileType))
    (listings : list (string * outcome (list string))) : FileSystem :=
  {| normalize := fun p => p;
     join := fun p childName => p +:+ "/" +:+ childName;
     lstatSync := fun p =>
       match assoc p types with
       | Some t => Ret {| ftype := t |}
       | None => Throw (ENOENT "lstat" p)
       end;
     statSync := fun p =>
       match assoc p followed with
       | Some t => Ret {| ftype := t |}
       | None => Throw (ENOENT "stat" p)
       end;
     readdirSync := fun p =>
       match assoc p listings with
       | Some r => r
       | None => Throw (ENOENT "scandir" p)
       end |}.

(** [root/{sub/{f3.txt}, f1.txt, f2.log, link}], where [link] is a symbolic
    link to [root/sub]. *)
Definition project_fs : FileSystem :=
  table_fs
    [("root", Directory); ("root/sub", Directory); ("root/sub/f3.txt", Regular);
     ("root/f1.txt", Regular); ("root/f2.log", Regular);
     ("root/link", SymbolicLink)]
    [("root", Directory); ("root/sub", Directory); ("root/sub/f3.txt", Regular);
     ("root/f1.txt", Regular); ("root/f2.log", Regular);
     ("root/link", Directory)]
    [("root", Ret ["sub"; "f1.txt"; "f2.log"; "link"]);
     ("root/sub", Ret ["f3.txt"]);
     ("root/link", Ret ["f3.txt"])].

Definition project_tree : node :=
  Dir [("sub", Dir [("f3.txt", Entry Regular)]);
       ("f1.txt", Entry Regular);
       ("f2.log", Entry Regular);
       ("link", Entry SymbolicLink)].

(** [data/{open.txt, locked/}], where listing [data/locked] is refused,
    with the error Node raises for it. *)
Definition EACCES_locked : JsError :=
  {| code := Some "EACCES";
     epath := Some "data/locked";
     message := "EACCES: permission denied, scandir 'data/locked'" |}.

Definition locked_fs : FileSystem :=
  table_fs
    [("data", Directory); ("data/open.txt", Regular); ("data/locked", Directory)]
    [("data", Directory); ("data/open.txt", Regular); ("data/locked", Directory)]
    [("data", Ret ["open.txt"; "locked"]); ("data/locked", Throw EACCES_locked)].

(** A small glob engine for the examples. It reads a pattern made of
    [*] (any run of code units other than [/]), [?] (one code unit other
    than [/]), a closed [[...]] set of literal code units, and literals;
    on the patterns and paths of the examples it decides as [minimatch]
    does under the default options. [set] is the set being read, when the
    pattern is inside brackets. *)
Fixpoint glob (pattern : string) (set : option (list ascii)) : string -> bool :=
  match pattern, set with
  | EmptyString, None => fun s => bool_decide (s = "")
  | EmptyString, Some _ => fun _ => false
  | String "]" pattern', Some chars =>
      fun s =>
        match s with
        | String d s' => bool_decide (d ∈ chars) && glob pattern' None s'
        | EmptyString => false
        end
  | String c pattern', Some chars => glob pattern' (Some (c :: chars))
  | String "[" pattern', None => glob pattern' (Some [])
  | String "*" pattern', None =>
      fix star (s : string) : bool :=
        glob pattern' None s
        || match s with
           | String d s' => negb (Ascii.eqb d "/") && star s'
           | EmptyString => false
           end
  | String "?" pattern', None =>
      fun s =>
        match s with
        | String d s' => negb (Ascii.eqb d "/") && glob pattern' None s'
        | EmptyString => false
        end
  | String c pattern', None =>
      fun s =>
        match s with
        | String d s' => Ascii.eqb c d && glob pattern' None s'
        | EmptyString => false
        end
  end.

(** [minimatch.match]: the paths the pattern matches, or, with [nonull]
    and no match at all, the pattern itself. There are no braces to expand
    in the patterns of the examples. *)
Definition glob_minimatch : Minimatch :=
  {| minimatch_match := fun list pattern options =>
       let matches := filter (fun f => glob pattern None f = true) list in
       if nonull options && bool_decide (matches = []) then [pattern] else matches;
     braceExpand := fun pattern => [pattern] |}.

(** The options of a caller who changes one flag of the defaults. *)
Definition with_nonull `{Host} (b : bool) : MatchOptions :=
  {| debug := false; nobrace := true; noglobstar := false; dot := true;
     noext := false; nocase := win32; nonull := b; matchBase := false;
     nocomment := false; nonegate := false; flipNegate := false |}.

Definition with_flipNegate `{Host} (b : bool) : MatchOptions :=
  {| debug := false; nobrace := true; noglobstar := false; dot := true;
     noext := false; nocase := win32; nonull := false; matchBase := false;
     nocomment := false; nonegate := false; flipNegate := b |}.

(** ** [cp] and [_checkShell] *)

(** The [shelljs] package as [cp] uses it: [shell.cp], given its options
    when there are some, and what [shell.error()] returns after it, [null]
    or the message of the failure. With its default configuration
    [shelljs] records a failure and throws nothing. *)
Class Shell := {
  shell_cp : option string -> string -> string -> option string
}.

(** A string that may be [null] or [undefined], as a condition. *)
Definition truthy (s : option string) : bool :=
  match s with
  | Some s => negb (bool_decide (s = ""))
  | None => false
  end.

(** [se] is what [shell.error()] returns; a missing [continueOnError] is
    [undefined], which [!continueOnError] treats as [false]. *)
Definition _checkShell (se : option string) (cmd : string) (continueOnError : bool)
  : outcome unit :=
  if truthy se then
    let errMsg := "Failed " +:+ cmd +:+ ": " +:+ default "" se in
    if negb continueOnError then Throw (new_Error errMsg) else Ret tt
  else Ret tt.

Definition cp `{Shell} (source dest : string) (options : option string)
    (continueOnError : bool) : outcome unit :=
  let se :=
    if truthy options then shell_cp options source dest
    else shell_cp None source dest in
  _checkShell se "cp" continueOnError.

(** ** [mkdirP] *)

(** [process.env['TASKLIB_TEST_MKDIRP_FAILSAFE']], and for a string [s] the
    lengths [n] with [n >= s] as JavaScript compares a number with a
    string: those from [number_threshold s] on, or none when that is
    [None] (the string is not a number). *)
Class Process := {
  TASKLIB_TEST_MKDIRP_FAILSAFE : option string;
  number_threshold : string -> option nat
}.

(** [path.dirname], and [fs.mkdirSync] given the directories this call has
    made so far. *)
Class DirMaker := {
  dirname : string -> string;
  mkdirSync : list string -> string -> outcome unit
}.

(** A call of [mkdirP] into [fs]: [fs.statSync] or [fs.mkdirSync]. *)
Inductive DirCall :=
| Probe (p : string)
| Make (p : string).

(** [stack.length >= (process.env['TASKLIB_TEST_MKDIRP_FAILSAFE'] || 1000)] *)
Definition failsafe_reached `{Process} (length : nat) : bool :=
  if truthy TASKLIB_TEST_MKDIRP_FAILSAFE then
    match number_threshold (default "" TASKLIB_TEST_MKDIRP_FAILSAFE) with
    | Some threshold => threshold <=? length
    | None => false
    end
  else 1000 <=? length.

Section MkdirP.
Context `{FileSystem} `{Process} `{DirMaker}.

(** [while (stack.length) { let dir = stack.pop(); ... }]: the directories
    in the order [pop] gives them, the last pushed first. [created] are the
    directories made so far. *)
Fixpoint create_dirs (p : string) (popped created : list string)
    (calls : list DirCall) : list DirCall * outcome unit :=
  match popped with
  | [] => (calls, Ret tt)
  | dir :: popped =>
      let calls := calls ++ [Make dir] in
      match mkdirSync created dir with
      | Throw err =>
          (calls,
           Throw (new_Error ("Unable to create directory " +:+ p +:+ " . "
                             +:+ message err)))
      | Ret _ => create_dirs p popped (created ++ [dir]) calls
      end
  end.

(** The [while (true)] loop, then the second loop. [fuel] bounds the
    number of iterations of the first; [None] means the bound was
    reached. *)
Fixpoint mkdirP_loop (fuel : nat) (p : string) (stack : list string)
    (testDir : string) (calls : list DirCall)
  : list DirCall * option (outcome unit) :=
  match fuel with
  | O => (calls, None)
  | S fuel =>
      if failsafe_reached (length stack) then
        (calls ++ [Make p], Some (mkdirSync [] p))
      else
        let calls := calls ++ [Probe testDir] in
        match statSync testDir with
        | Throw err =>
            if decide (code err = Some "ENOENT") then
              let parentDir := dirname testDir in
              if decide (testDir = parentDir) then
                (calls,
                 Some (Throw (new_Error
                   ("Unable to create directory " +:+ p
                    +:+ ". Root directory does not exist: " +:+ testDir))))
              else mkdirP_loop fuel p (push testDir stack) parentDir calls
            else if decide (code err = Some "UNKNOWN") then
              (calls,
               Some (Throw (new_Error
                 ("Unable to create directory " +:+ p
                  +:+ ". Unable to verify the directory exists: " +:+ testDir
                  +:+ ". If directory is a file share, please verify the share name is correct, the share is online, and the current process has permission to access the share."))))
            else (calls, Some (Throw err))
        | Ret stats =>
            if negb (isDirectory stats) then
              (calls,
               Some (Throw (new_Error
                 ("Unable to create directory " +:+ p
                  +:+ ". Conflicting file exists: " +:+ testDir))))
            else
              let '(calls, r) := create_dirs p (rev stack) [] calls in
              (calls, Some r)
        end
  end.

Definition mkdirP (fuel : nat) (p : string)
  : list DirCall * option (outcome unit) :=
  if decide (p = "") then ([], Some (Throw (new_Error "p not supplied")))
  else mkdirP_loop fuel p [] p [].
End MkdirP.

(** *** Notions for the properties of [mkdirP] *)

(** [p], its parent, the parent of that, and so on: [k] paths. *)
Definition ancestors `{DirMaker} (k : nat) (p : string) : list string :=
  map (fun i => Nat.iter i dirname p) (seq 0 k).

(** [fs.statSync] finds nothing at the path, and the path has a parent
    other than itself. *)
Definition missing `{FileSystem} `{DirMaker} (d : string) : Prop :=
  (exists err, statSync d = Throw err /\ code err = Some "ENOENT")
  /\ d <> dirname d.

(** Each directory of the list can be made once those before it are. *)
Definition makeable `{DirMaker} (dirs : list string) : Prop :=
  forall i d, dirs !! i = Some d -> mkdirSync (take i dirs) d = Ret tt.

Definition probes (calls : list DirCall) : list string :=
  omap (fun c => match c with Probe q => Some q | Make _ => None end) calls.

Definition makes (calls : list DirCall) : list string :=
  omap (fun c => match c with Make q => Some q | Probe _ => None end) calls.

(** *** More notions for the properties of [find] and [match] *)

(** The paths [find] can arrive at from [root]: the root, and the entries
    [readdirSync] lists for a path it arrived at whose own status is that
    of a directory. *)
Inductive reachable `{FileSystem} (root : string) : string -> Prop :=
| reachable_root : reachable root root
| reachable_entry d st names childName :
    reachable root d ->
    lstatSync d = Ret st ->
    isDirectory st = true ->
    readdirSync d = Ret names ->
    childName ∈ names ->
    reachable root (join d childName).

Definition lstat_paths (calls : list FsCall) : list string :=
  omap (fun c => match c with Lstat q => Some q | _ => None end) calls.

Definition readdir_paths (calls : list FsCall) : list string :=
  omap (fun c => match c with Readdir q => Some q | _ => None end) calls.

(** [lstatSync] reports a directory at the path. *)
Definition directory_at `{FileSystem} (q : string) : bool :=
  match lstatSync q with
  | Ret st => isDirectory st
  | Throw _ => false
  end.

(** No two [a] in a row. *)
Fixpoint no_run (a : ascii) (s : string) : bool :=
  match s with
  | EmptyString => true
  | String c r =>
      match r with
      | String d _ => negb (Ascii.eqb c a && Ascii.eqb d a) && no_run a r
      | EmptyString => true
      end
  end.

(** No [a] at all. *)
Fixpoint free_of (a : ascii) (s : string) : bool :=
  match s with
  | EmptyString => true
  | String c r => negb (Ascii.eqb c a) && free_of a r
  end.

(** The pattern is one [match] passes over: empty once trimmed, or a
    comment while comments are on. *)
Definition skipped (options : MatchOptions) (pattern : string) : Prop :=
  trim pattern = ""
  \/ (nocomment options = false /\ _startsWith (trim pattern) "#" = true).

(** What [match] hands to [minimatch.match] for a pattern while [nobrace]
    is on: whether the pattern includes, and the pattern trimmed, stripped
    of its leading ['!'], trimmed again and rooted; [None] for a pattern
    that is passed over. *)
Definition applied_pattern `{Host} (patternRoot : option string)
    (options : MatchOptions) (pattern : string) : option (bool * string) :=
  let pattern := trim pattern in
  if decide (pattern = "") then None
  else if negb (nocomment options) && _startsWith pattern "#" then None
  else
    let negateCount := if nonegate options then 0 else count_bangs pattern in
    let pattern := trim (substring_from negateCount pattern) in
    if decide (pattern = "") then None
    else
      match root_pattern patternRoot (locked options) pattern with
      | Ret rooted => Some (isIncludePattern negateCount (flipNegate options), rooted)
      | Throw _ => None
      end.

(** The pattern is an exclude pattern under the options. *)
Definition excluding (options : MatchOptions) (pattern : string) : Prop :=
  nonegate options = false
  /\ isIncludePattern (count_bangs (trim pattern)) (flipNegate options) = false.

(** ** More concrete environments *)

(** A shell whose [cp] fails exactly for the source ["missing.txt"]. *)
Definition demo_shell : Shell :=
  {| shell_cp := fun _ source _ =>
       if decide (source = "missing.txt")
       then Some "cp: no such file or directory: missing.txt"
       else None |}.

(** The environment variable is not set. *)
Definition plain_process : Process :=
  {| TASKLIB_TEST_MKDIRP_FAILSAFE := None;
     number_threshold := fun _ => None |}.

(** [path.dirname] on the paths of the examples, and an [fs.mkdirSync]
    that fails for the paths of [refused] only. *)
Definition table_dirs (refused : list string) : DirMaker :=
  {| dirname := fun p =>
       default p (assoc p [("/srv/app/logs/today", "/srv/app/logs");
                           ("/srv/app/logs", "/srv/app");
                           ("/srv/app", "/srv");
                           ("/srv", "/");
                           ("/etc/hosts/x", "/etc/hosts");
                           ("/etc/hosts", "/etc");
                           ("/etc", "/");
                           ("Z:\data", "Z:\")]);
     mkdirSync := fun _ dir =>
       if bool_decide (dir ∈ refused)
       then Throw {| code := Some "EACCES"; epath := Some dir;
                     message := "EACCES: permission denied, mkdir '" +:+ dir +:+ "'" |}
       else Ret tt |}.

(** A file system where every call is refused. *)
Definition EPERM (p : string) : JsError :=
  {| code := Some "EPERM"; epath := Some p;
     message := "EPERM: operation not permitted, '" +:+ p +:+ "'" |}.

Definition sealed_fs : FileSystem :=
  {| normalize := fun p => p;
     join := fun p childName => p +:+ "/" +:+ childName;
     lstatSync := fun p => Throw (EPERM p);
     statSync := fun p => Throw (EPERM p);
     readdirSync := fun p => Throw (EPERM p) |}.

(** The error Node raises for a path that goes through an entry that is
    not a directory, and for listing such an entry. *)
Definition ENOTDIR (syscall p : string) : JsError :=
  {| code := Some "ENOTDIR";
     epath := Some p;
     message := "ENOTDIR: not a directory, " +:+ syscall +:+ " '" +:+ p +:+ "'" |}.

(** [/srv/app] is an empty directory and [/etc/hosts] a file; there is no
    drive [Z:]. *)
Definition server_tree : FileSystem :=
  table_fs
    [("/", Directory); ("/srv", Directory); ("/srv/app", Directory);
     ("/etc", Directory); ("/etc/hosts", Regular)]
    [("/", Directory); ("/srv", Directory); ("/srv/app", Directory);
     ("/etc", Directory); ("/etc/hosts", Regular)]
    [("/", Ret ["srv"; "etc"]); ("/srv", Ret ["app"]); ("/srv/app", Ret []);
     ("/etc", Ret ["hosts"])].

(** The same entries, with the answers of a POSIX system below the file
    [/etc/hosts]: a path that goes through it is not missing but refused
    with [ENOTDIR], and so is listing it. *)
Definition server_fs : FileSystem :=
  {| normalize := @normalize server_tree;
     join := @join server_tree;
     lstatSync := fun p =>
       if _startsWith p "/etc/hosts/" then Throw (ENOTDIR "lstat" p)
       else @lstatSync server_tree p;
     statSync := fun p =>
       if _startsWith p "/etc/hosts/" then Throw (ENOTDIR "stat" p)
       else @statSync server_tree p;
     readdirSync := fun p =>
       if bool_decide (p = "/etc/hosts") || _startsWith p "/etc/hosts/"
       then Throw (ENOTDIR "scandir" p)
       else @readdirSync server_tree p |}.

(** A file system with nothing in it, and a [path.dirname] that never
    arrives at a path that is its own parent. *)
Definition empty_fs : FileSystem := table_fs [] [] [].

Definition endless_dirs : DirMaker :=
  {| dirname := fun p => "../" +:+ p;
     mkdirSync := fun _ _ => Ret tt |}.

(** * Properties *)

(** ** Strings *)

Lemma collapse_runs_nonempty (a : ascii) (s : string) :
  s <> "" -> collapse_runs a s <> "".
Proof.
  induction s as [|c r IH]; [done|]. intros _.
  destruct r as [|d r']; [done|]. simpl.
  destruct (Ascii.eqb c a && Ascii.eqb d a); [|done].
  apply IH. done.
Qed.

Lemma replace_all_nonempty (a b : ascii) (s : string) :
  s <> "" -> replace_all a b s <> "".
Proof. by destruct s. Qed.

Lemma append_nil_l (s : string) : "" +:+ s = s.
Proof. reflexivity. Qed.

Lemma append_cons (c : ascii) (r s : string) :
  String c r +:+ s = String c (r +:+ s).
Proof. reflexivity. Qed.

Lemma append_assoc (s t u : string) : (s +:+ t) +:+ u = s +:+ t +:+ u.
Proof.
  induction s as [|c s IH]; [done|]. by rewrite !append_cons, IH.
Qed.

Lemma append_nonempty_r (s t : string) : t <> "" -> s +:+ t <> "".
Proof. destruct s; [done|]. by rewrite append_cons. Qed.

Lemma prefix_refl (s : string) : String.prefix s s = true.
Proof.
  induction s as [|c s IH]; [done|]. simpl.
  by destruct (ascii_dec c c).
Qed.

Lemma includes_refl (s : string) : includes s s = true.
Proof.
  unfold includes. destruct s as [|c s]; [done|].
  cbn [String.index]. by rewrite prefix_refl.
Qed.

(** A string that occurs in [s] occurs in [s] with anything put before
    it. *)
Lemma includes_append_l (t prefix s : string) :
  includes t s = true -> includes t (prefix +:+ s) = true.
Proof.
  intros Hs. induction prefix as [|c prefix IH]; [done|].
  rewrite append_cons. unfold includes in *. cbn [String.index].
  destruct (String.prefix t (String c (prefix +:+ s))); [done|].
  by destruct (String.index 0 t (prefix +:+ s)).
Qed.

Section Normalizing.
Context `{Host}.

Lemma _normalizeSeparators_nonempty (p : string) :
  p <> "" -> _normalizeSeparators p <> "".
Proof.
  intros Hp. unfold _normalizeSeparators. destruct win32.
  - apply append_nonempty_r, collapse_runs_nonempty. by apply replace_all_nonempty.
  - by apply collapse_runs_nonempty.
Qed.

Lemma _isRooted_returns (p : string) :
  p <> "" -> exists rooted, _isRooted p = Ret rooted.
Proof.
  intros Hp. apply _normalizeSeparators_nonempty in Hp. unfold _isRooted.
  destruct (decide (_normalizeSeparators p = "")); [done|].
  destruct win32; eauto.
Qed.
End Normalizing.

Lemma slice_last_one_cons (c d : ascii) (r : string) :
  slice_last 1 (String c (String d r)) = slice_last 1 (String d r).
Proof. unfold slice_last. simpl. by rewrite Nat.sub_0_r. Qed.

Lemma slice_last_one (s : string) (c : ascii) :
  slice_last 1 s = String c "" <-> exists r, s = r +:+ String c "".
Proof.
  induction s as [|a r IH].
  - split; [done|]. intros [[|? ?] Hr]; discriminate.
  - destruct r as [|d r'].
    + split.
      * intros [= ->]. by exists "".
      * intros [[|b [|? ?]] Hr]; rewrite ?append_cons, ?append_nil_l in Hr;
          try discriminate. by simplify_eq.
    + rewrite slice_last_one_cons, IH. split.
      * intros [r ->]. by exists (String a r).
      * intros [[|b r] Hr]; rewrite ?append_cons, ?append_nil_l in Hr;
          [discriminate|].
        injection Hr as -> Hr. eauto.
Qed.

(** ** Stacks *)

Lemma pop_nil {A} : pop (@nil A) = None.
Proof. reflexivity. Qed.

Lemma pop_push {A} (x : A) (stack : list A) : pop (push x stack) = Some (x, stack).
Proof.
  unfold pop, push. rewrite rev_app_distr. simpl. by rewrite rev_involutive.
Qed.

Lemma push_reversed_app (childItems stack : list _FindItem) :
  push_reversed childItems stack = stack ++ rev childItems.
Proof.
  unfold push_reversed. generalize (rev childItems) as items.
  intros items. revert stack.
  induction items as [|item items IH]; intros stack; simpl.
  - by rewrite app_nil_r.
  - rewrite IH. unfold push. by rewrite <- app_assoc.
Qed.

(** ** Trees *)

Lemma node_induction (P : node -> Prop) :
  (forall ft, P (Entry ft)) ->
  (forall entries, Forall (fun e => P (snd e)) entries -> P (Dir entries)) ->
  forall t, P t.
Proof.
  intros HE HD. fix IH 1. intros [ft|entries].
  - apply HE.
  - apply HD. revert entries. fix IHentries 1. intros [|[name t] entries].
    + constructor.
    + constructor; [apply IH | apply IHentries].
Qed.

Lemma size_pos (t : node) : 0 < size t.
Proof. destruct t; simpl; lia. Qed.

Section WalkFacts.
Context `{FileSystem}.

Lemma walk_head (p : string) (t : node) : head (walk p t) = Some p.
Proof. by destruct t. Qed.

Lemma walk_cons (p : string) (t : node) : exists rest, walk p t = p :: rest.
Proof. destruct t; simpl; eauto. Qed.

Lemma walk_length (p : string) (t : node) : length (walk p t) = size t.
Proof.
  revert p. induction t as [ft|entries IH] using node_induction; intros p.
  - reflexivity.
  - simpl. f_equal. induction IH as [|e entries He _ IHentries]; simpl.
    + reflexivity.
    + by rewrite length_app, He, IHentries.
Qed.

Lemma walk_occurs (p : string) (t : node) (q : string) :
  q ∈ walk p t <-> occurs p t q.
Proof.
  split.
  - revert p. induction t as [ft|entries IH] using node_induction; intros p.
    + simpl. intros ->%list_elem_of_singleton. constructor.
    + simpl. intros [->|Hq]%elem_of_cons; [constructor|].
      apply list_elem_of_In, in_flat_map in Hq as (e & He & Hq).
      apply list_elem_of_In in He, Hq.
      rewrite Forall_forall in IH.
      apply occurs_below with e; [done|]. by apply IH.
  - induction 1 as [p t|p entries e q He _ IH].
    + destruct (walk_cons p t) as [rest ->]. left.
    + simpl. right. apply list_elem_of_In, in_flat_map.
      exists e. split; by apply list_elem_of_In.
Qed.

Lemma flat_map_sublist {A B} (f : A -> list B) (x : A) (l : list A) :
  x ∈ l -> f x `sublist_of` flat_map f l.
Proof.
  induction 1 as [x l|x y l _ IH]; simpl.
  - by apply sublist_inserts_r.
  - by apply sublist_inserts_l.
Qed.

Lemma children_sublist (p : string) (entries : list (string * node)) :
  map (fun e => join p (fst e)) entries
    `sublist_of` flat_map (fun e => walk (join p (fst e)) (snd e)) entries.
Proof.
  induction entries as [|e entries IH]; simpl; [constructor|].
  destruct (walk_cons (join p (fst e)) (snd e)) as [rest ->]. simpl.
  apply sublist_skip. by apply sublist_inserts_l.
Qed.

Lemma within_sublist (p : string) (t : node) (d : string)
    (entries : list (string * node)) :
  within p t d entries ->
  d :: map (fun e => join d (fst e)) entries `sublist_of` walk p t.
Proof.
  induction 1 as [p entries|p entries e d es He _ IH]; simpl.
  - apply sublist_skip, children_sublist.
  - apply sublist_cons. etrans; [exact IH|].
    by apply (flat_map_sublist (fun e => walk (join p (fst e)) (snd e))).
Qed.
End WalkFacts.

(** ** [find] *)

Section FindFacts.
Context `{FileSystem}.

Lemma queue_size_cons (x : _FindItem * node) (queue : list (_FindItem * node)) :
  queue_size (x :: queue) = size (snd x) + queue_size queue.
Proof. reflexivity. Qed.

Lemma queue_size_app (q1 q2 : list (_FindItem * node)) :
  queue_size (q1 ++ q2) = queue_size q1 + queue_size q2.
Proof. unfold queue_size. by rewrite map_app, list_sum_app. Qed.

Lemma find_loop_walks (fuel : nat) :
  forall (queue : list (_FindItem * node)) (result : list string)
         (calls : list FsCall),
    Forall (fun x => hosts (path (fst x)) (snd x)) queue ->
    queue_size queue <= fuel ->
    snd (find_loop fuel (queue_stack queue) result calls)
    = Some (Ret (result ++ flat_map (fun x => walk (path (fst x)) (snd x)) queue)).
Proof.
  induction fuel as [|fuel IH]; intros [|[item t] queue] result calls Hq Hfuel.
  - simpl. by rewrite app_nil_r.
  - rewrite queue_size_cons in Hfuel. pose proof (size_pos t). simpl in *. lia.
  - simpl. by rewrite app_nil_r.
  - unfold queue_stack. simpl map. simpl rev.
    change (rev (map fst queue) ++ [item]) with (push item (queue_stack queue)).
    simpl find_loop. rewrite pop_push.
    apply Forall_cons in Hq as [Ht Hq]. simpl in Ht.
    rewrite queue_size_cons in Hfuel. cbn [snd] in Hfuel.
    inversion Ht as [p ft Hft Hstat|p entries Hstat Hdir Hentries]; subst.
    + rewrite Hstat. unfold isDirectory. simpl.
      rewrite bool_decide_eq_false_2 by done.
      rewrite IH; [|done|cbn [size] in Hfuel; lia].
      simpl. by rewrite <- app_assoc.
    + rewrite Hstat. unfold isDirectory. simpl.
      rewrite Hdir, push_reversed_app.
      set (children := map (fun e : string * node =>
             (new_FindItem (join (path item) (fst e)) (level item + 1), snd e))
             entries).
      replace (queue_stack queue ++ rev _) with (queue_stack (children ++ queue)).
      2:{ unfold queue_stack, children.
          rewrite map_app, rev_app_distr, !map_map. done. }
      rewrite IH.
      * simpl. rewrite flat_map_app, <- !app_assoc. simpl.
        do 3 f_equal. unfold children. rewrite flat_map_concat_map, map_map.
        by rewrite <- flat_map_concat_map.
      * apply Forall_app. split; [|done].
        unfold children. rewrite Forall_map. done.
      * rewrite queue_size_app. cbn [size] in Hfuel.
        replace (queue_size children)
          with (list_sum (map (fun e => size (snd e)) entries)); [lia|].
        unfold queue_size, children. by rewrite map_map.
Qed.

Lemma find_loop_link_aware (fuel : nat) :
  forall (stack : list _FindItem) (result : list string) (calls : list FsCall),
    Forall link_aware calls ->
    Forall link_aware (fst (find_loop fuel stack result calls)).
Proof.
  induction fuel as [|fuel IH]; intros stack result calls Hcalls; simpl.
  - by destruct (pop stack) as [[item stack']|].
  - destruct (pop stack) as [[item stack']|]; [|done].
    assert (Forall link_aware (calls ++ [Lstat (path item)])) as Hcalls1.
    { apply Forall_app. split; [done|]. by repeat constructor. }
    destruct (lstatSync (path item)) as [stats|err] eqn:Hstat; [|done].
    destruct (isDirectory stats) eqn:Hdir; [|by apply IH].
    assert (Forall link_aware
              (calls ++ [Lstat (path item)] ++ [Readdir (path item)])) as Hcalls2.
    { rewrite app_assoc. apply Forall_app. split; [done|].
      repeat constructor. exists stats. split; [done|].
      unfold isDirectory in Hdir. by apply bool_decide_eq_true in Hdir. }
    rewrite <- app_assoc.
    destruct (readdirSync (path item)) as [names|err]; [|done].
    by apply IH.
Qed.

Lemma find_loop_failure_state (fuel : nat) :
  forall (stack : list _FindItem) (result : list string) (calls : list FsCall),
    Forall (fun c => call_error c = None) calls ->
    failure_state (find_loop fuel stack result calls).
Proof.
  induction fuel as [|fuel IH]; intros stack result calls Hcalls; simpl.
  - left. by destruct (pop stack) as [[item stack']|].
  - destruct (pop stack) as [[item stack']|]; [|by left].
    destruct (lstatSync (path item)) as [stats|err] eqn:Hstat.
    + assert (Forall (fun c => call_error c = None)
                     (calls ++ [Lstat (path item)])) as Hcalls1.
      { apply Forall_app. split; [done|]. repeat constructor.
        simpl. by rewrite Hstat. }
      destruct (isDirectory stats); [|by apply IH].
      destruct (readdirSync (path item)) as [names|err] eqn:Hdir.
      * apply IH. apply Forall_app. split; [done|]. repeat constructor.
        simpl. by rewrite Hdir.
      * right. exists (calls ++ [Lstat (path item)]), (Readdir (path item)), err.
        simpl. by rewrite Hdir.
    + right. exists calls, (Lstat (path item)), err. simpl. by rewrite Hstat.
Qed.
End FindFacts.

Section FindTheorems.
Context `{FileSystem}.

Lemma find_calls_link_aware (fuel : nat) (findPath : string) :
  Forall link_aware (fst (find fuel findPath)).
Proof.
  unfold find. destruct (decide (findPath = "")); [constructor|].
  destruct (lstatSync (normalize findPath)) as [st|err].
  - pose proof (find_loop_link_aware fuel
      [new_FindItem (normalize findPath) 1] [] [Lstat (normalize findPath)]) as Hloop.
    destruct (find_loop _ _ _ _) as [calls [[result|err]|]]; simpl in *;
      apply Hloop; by repeat constructor.
  - destruct (decide (code err = Some "ENOENT")); by repeat constructor.
Qed.

(** C10. Called with the empty string, the only falsy value of its
    parameter type, [find] returns the empty array at once: no exception,
    and no call into the file system, whatever the file system is. *)
Theorem find_empty_path (fuel : nat) : find fuel "" = ([], Some (Ret [])).
Proof. reflexivity. Qed.

(** C4. When the first [lstatSync], of the normalized path, fails with
    the code ENOENT, [find] returns the empty array and throws nothing. *)
Theorem find_missing_root (fuel : nat) (findPath : string) (err : JsError) :
  lstatSync (normalize findPath) = Throw err ->
  code err = Some "ENOENT" ->
  snd (find fuel findPath) = Some (Ret []).
Proof.
  intros Hstat Hcode. unfold find.
  destruct (decide (findPath = "")); [done|].
  rewrite Hstat. by destruct (decide (code err = Some "ENOENT")).
Qed.

(** C3. When the snapshot holds the tree [t] at the normalized path, and
    the loop is given at least as many iterations as [t] has nodes,
    [find] returns the pre-order [walk] of [t]: the root comes first, the
    result has the paths of the nodes of [t] and no others, one element
    per node, and every directory is followed, in this order, by its
    entries as [readdirSync] lists them. *)
Theorem find_walks_tree (fuel : nat) (findPath : string) (t : node) :
  findPath <> "" ->
  hosts (normalize findPath) t ->
  size t <= fuel ->
  exists result,
    snd (find fuel findPath) = Some (Ret result)
    /\ result = walk (normalize findPath) t
    /\ head result = Some (normalize findPath)
    /\ (forall q, q ∈ result <-> occurs (normalize findPath) t q)
    /\ length result = size t
    /\ (forall d entries,
          within (normalize findPath) t d entries ->
          d :: map (fun e => join d (fst e)) entries `sublist_of` result).
Proof.
  intros Hpath Ht Hfuel. exists (walk (normalize findPath) t).
  split; [|split; [done|split; [apply walk_head|split; [apply walk_occurs|
          split; [apply walk_length|apply within_sublist]]]]].
  unfold find. destruct (decide (findPath = "")); [done|].
  assert (exists st, lstatSync (normalize findPath) = Ret st) as [st ->].
  { inversion Ht; eauto. }
  pose proof (find_loop_walks fuel [(new_FindItem (normalize findPath) 1, t)]
                [] [Lstat (normalize findPath)]) as Hloop.
  unfold queue_stack in Hloop. simpl in Hloop.
  rewrite app_nil_r in Hloop.
  destruct (find_loop _ _ _ _) as [calls r]. simpl in Hloop.
  rewrite Hloop; [done| |unfold queue_size; simpl; lia].
  by repeat constructor.
Qed.

(** C6. [find] asks only for the status of an entry itself: it never
    calls [statSync], and it never lists a path whose own status is that
    of a symbolic link, whatever the link leads to. *)
Theorem find_never_follows_links (fuel : nat) (findPath p : string) (st : Stats) :
  lstatSync p = Ret st ->
  isSymbolicLink st = true ->
  (Readdir p ∉ fst (find fuel findPath))
  /\ (forall q, Stat q ∉ fst (find fuel findPath)).
Proof.
  intros Hstat Hlink.
  pose proof (find_calls_link_aware fuel findPath) as Hcalls.
  rewrite Forall_forall in Hcalls. split.
  - intros [st' [Hstat' Hdir]]%Hcalls.
    rewrite Hstat in Hstat'. injection Hstat' as <-.
    unfold isSymbolicLink in Hlink. apply bool_decide_eq_true in Hlink.
    congruence.
  - intros q Hq%Hcalls. exact Hq.
Qed.

(** Once the first [lstatSync] has succeeded, a failing call is the last
    call [find] makes, and [find] throws a new [Error] whose message is
    ["Failed find: "] followed by the message of the exception that call
    raised. *)
Lemma find_aborts_at_failing_call (fuel : nat) (findPath : string) (st : Stats)
    (c : FsCall) (cause : JsError) :
  findPath <> "" ->
  lstatSync (normalize findPath) = Ret st ->
  c ∈ fst (find fuel findPath) ->
  call_error c = Some cause ->
  snd (find fuel findPath)
  = Some (Throw (new_Error ("Failed find: " +:+ message cause)))
  /\ last (fst (find fuel findPath)) = Some c.
Proof.
  intros Hpath Hstat. unfold find.
  destruct (decide (findPath = "")); [done|]. rewrite Hstat.
  pose proof (find_loop_failure_state fuel
    [new_FindItem (normalize findPath) 1] [] [Lstat (normalize findPath)]) as Hloop.
  destruct (find_loop _ _ _ _) as [calls r].
  destruct Hloop as [[Hok Hr]|(before & c0 & cause0 & Hcalls & Hok & Hc0 & Hr)];
    simpl in *.
  - repeat constructor. simpl. by rewrite Hstat.
  - intros Hc Hcause. exfalso.
    assert (c ∈ calls) as Hin by (by destruct r as [[?|?]|]).
    rewrite Forall_forall in Hok. apply Hok in Hin. congruence.
  - subst calls r. simpl. intros Hc Hcause.
    apply elem_of_app in Hc as [Hc|Hc%list_elem_of_singleton].
    + rewrite Forall_forall in Hok. apply Hok in Hc. congruence.
    + subst c0. rewrite last_snoc. split; [|done]. congruence.
Qed.

(** C7. Once the first [lstatSync] has succeeded, a call that fails aborts
    the whole walk: it is the last call [find] makes, and no list is
    returned. What [find] throws wraps the cause: it is a new [Error] whose
    message is ["Failed find: "] followed by the message of the exception
    the call raised. That message carries the offending path: the messages
    of Node's [fs] exceptions name the path of the call, and so the message
    [find] throws names it too. *)
Theorem find_wraps_message (fuel : nat) (findPath : string) (st : Stats)
    (c : FsCall) (cause : JsError) :
  findPath <> "" ->
  lstatSync (normalize findPath) = Ret st ->
  c ∈ fst (find fuel findPath) ->
  call_error c = Some cause ->
  includes (call_path c) (message cause) = true ->
  exists e,
    snd (find fuel findPath) = Some (Throw e)
    /\ message e = "Failed find: " +:+ message cause
    /\ includes (message cause) (message e) = true
    /\ includes (call_path c) (message e) = true
    /\ last (fst (find fuel findPath)) = Some c.
Proof.
  intros Hpath Hstat Hc Hcause Hnames.
  destruct (find_aborts_at_failing_call fuel findPath st c cause)
    as [Hthrown Hlast]; [done..|].
  exists (new_Error ("Failed find: " +:+ message cause)).
  split; [done|]. split; [done|]. simpl. split; [|split; [|done]].
  - apply includes_append_l, includes_refl.
  - by apply includes_append_l.
Qed.
End FindTheorems.

Lemma project_fs_hosts_tree : @hosts project_fs "root" project_tree.
Proof.
  repeat (first [apply (@hosts_dir project_fs) | apply (@hosts_entry project_fs)
                | apply Forall_cons_2 | apply Forall_nil_2
                | reflexivity | discriminate]).
Qed.

Lemma find_missing_root_witness : snd (@find project_fs 0 "nothing") = Some (Ret []).
Proof.
  apply (@find_missing_root project_fs 0 "nothing" (ENOENT "lstat" "nothing"));
    reflexivity.
Defined.

Lemma find_walks_tree_witness :
  snd (@find project_fs 6 "root")
  = Some (Ret ["root"; "root/sub"; "root/sub/f3.txt"; "root/f1.txt";
               "root/f2.log"; "root/link"]).
Proof.
  destruct (@find_walks_tree project_fs 6 "root" project_tree)
    as (result & Hfind & Hwalk & _).
  - discriminate.
  - exact project_fs_hosts_tree.
  - simpl. lia.
  - rewrite Hfind, Hwalk. reflexivity.
Defined.

(** [root/link] is a symbolic link, [statSync] reports the directory it
    leads to, and [readdirSync] would list that directory. *)
Lemma find_never_follows_links_witness :
  @statSync project_fs "root/link" = Ret {| ftype := Directory |}
  /\ @readdirSync project_fs "root/link" = Ret ["f3.txt"]
  /\ (Readdir "root/link" ∉ fst (@find project_fs 6 "root"))
  /\ (forall q, Stat q ∉ fst (@find project_fs 6 "root")).
Proof.
  split; [reflexivity|]. split; [reflexivity|].
  apply (@find_never_follows_links project_fs 6 "root" "root/link"
           {| ftype := SymbolicLink |}); reflexivity.
Defined.

(** Listing [data/locked] is refused; [find] has listed [data] and seen
    [data/open.txt] by then, and returns none of it. *)
Lemma find_wraps_message_witness :
  exists e,
    snd (@find locked_fs 4 "data") = Some (Throw e)
    /\ message e = "Failed find: " +:+ message EACCES_locked
    /\ includes (message EACCES_locked) (message e) = true
    /\ includes (call_path (Readdir "data/locked")) (message e) = true
    /\ last (fst (@find locked_fs 4 "data")) = Some (Readdir "data/locked").
Proof.
  apply (@find_wraps_message locked_fs 4 "data" {| ftype := Directory |}
           (Readdir "data/locked") EACCES_locked).
  - discriminate.
  - reflexivity.
  - vm_compute. do 5 apply list_elem_of_further. apply list_elem_of_here.
  - reflexivity.
  - reflexivity.
Defined.

(** ** Rooting a pattern *)

Lemma collapse_runs_cons (a c d : ascii) (r : string) :
  collapse_runs a (String c (String d r))
  = if Ascii.eqb c a && Ascii.eqb d a then collapse_runs a (String d r)
    else String c (collapse_runs a (String d r)).
Proof. reflexivity. Qed.

Lemma collapse_runs_head (a c : ascii) (r : string) :
  exists r', collapse_runs a (String c r) = String c r'.
Proof.
  revert c. induction r as [|d r IH]; intros c; [by exists ""|].
  rewrite collapse_runs_cons.
  destruct (Ascii.eqb c a) eqn:Hc, (Ascii.eqb d a) eqn:Hd; simpl; eauto.
  apply Ascii.eqb_eq in Hc, Hd. subst. apply IH.
Qed.

Lemma collapse_runs_other (a c : ascii) (r : string) :
  Ascii.eqb c a = false ->
  collapse_runs a (String c r) = String c (collapse_runs a r).
Proof. intros Hc. destruct r; [done|]. by rewrite collapse_runs_cons, Hc. Qed.

Lemma _startsWith_one (c d : ascii) (r : string) :
  _startsWith (String c r) (String d "") = Ascii.eqb c d.
Proof.
  unfold _startsWith, slice_to. simpl.
  replace (String.substring 0 0 r) with "" by (by destruct r).
  destruct (Ascii.eqb c d) eqn:Hcd.
  - apply Ascii.eqb_eq in Hcd as ->. by apply bool_decide_eq_true.
  - apply Ascii.eqb_neq in Hcd. apply bool_decide_eq_false. congruence.
Qed.

Lemma test_drive_prefix_collapse (c : ascii) (r : string) :
  is_letter c = true ->
  test_drive_prefix (collapse_runs "\" (replace_all "/" "\" (String c r)))
  = test_drive_prefix (String c r).
Proof.
  intros Hc. cbn [replace_all].
  assert (Ascii.eqb c "/" = false) as ->.
  { apply Ascii.eqb_neq. by intros ->. }
  assert (Ascii.eqb c "\" = false) as Hback.
  { apply Ascii.eqb_neq. by intros ->. }
  rewrite collapse_runs_other by done.
  destruct r as [|d r]; [done|]. cbn [replace_all].
  destruct (collapse_runs_head "\" (if Ascii.eqb d "/" then "\"%char else d)
              (replace_all "/" "\" r)) as [r' ->].
  destruct (Ascii.eqb d "/") eqn:Hd.
  - apply Ascii.eqb_eq in Hd as ->. done.
  - simpl. by destruct d as [[] [] [] [] [] [] [] []].
Qed.

Section RootedSpec.
Context `{Host}.

Lemma _isRooted_spec (p : string) :
  p <> "" -> _isRooted p = Ret (starts_rooted p).
Proof.
  intros Hp. pose proof (_normalizeSeparators_nonempty p Hp) as Hnorm.
  unfold _isRooted. destruct (decide (_normalizeSeparators p = "")); [done|].
  clear Hnorm. destruct p as [|c r]; [done|].
  unfold _normalizeSeparators, starts_rooted. destruct win32.
  - f_equal.
    destruct (test_unc (replace_all "/" "\" (String c r))) eqn:Hunc.
    + rewrite append_cons, _startsWith_one. simpl.
      cbn [replace_all] in Hunc.
      destruct (Ascii.eqb c "/") eqn:Hslash; [done|].
      destruct (Ascii.eqb c "\") eqn:Hback; [done|].
      exfalso. apply Ascii.eqb_neq in Hback.
      by destruct c as [[] [] [] [] [] [] [] []].
    + rewrite append_nil_l. clear Hunc.
      destruct (is_letter c) eqn:Hletter.
      * rewrite test_drive_prefix_collapse by done.
        cbn [replace_all].
        assert (Ascii.eqb c "/" = false) as ->.
        { apply Ascii.eqb_neq. by intros ->. }
        assert (Ascii.eqb c "\" = false) as Hback.
        { apply Ascii.eqb_neq. by intros ->. }
        rewrite collapse_runs_other, _startsWith_one, Hback by done. done.
      * cbn [replace_all].
        destruct (collapse_runs_head "\" (if Ascii.eqb c "/" then "\"%char else c)
                    (replace_all "/" "\" r)) as [r' ->].
        rewrite _startsWith_one.
        assert (test_drive_prefix (String c r) = false) as ->.
        { destruct r as [|d r]; [done|]. simpl. rewrite Hletter.
          by destruct d as [[] [] [] [] [] [] [] []]. }
        rewrite orb_false_r.
        destruct (Ascii.eqb c "/") eqn:Hslash.
        -- destruct r' as [|d r']; [done|]. simpl.
           by destruct d as [[] [] [] [] [] [] [] []].
        -- assert (test_drive_prefix (String c r') = false) as ->.
           { destruct r' as [|d r']; [done|]. simpl. rewrite Hletter.
             by destruct d as [[] [] [] [] [] [] [] []]. }
           by rewrite orb_false_r.
  - destruct (collapse_runs_head "/" c r) as [r' ->].
    by rewrite _startsWith_one.
Qed.
End RootedSpec.

Lemma test_drive_only_spec (root : string) :
  test_drive_only root = true
  <-> exists c, is_letter c = true /\ root = String c ":".
Proof.
  split.
  - destruct root as [|c [|d [|? ?]]]; try discriminate.
    + destruct d as [[] [] [] [] [] [] [] []]; try discriminate. eauto.
    + destruct d as [[] [] [] [] [] [] [] []]; discriminate.
  - intros (c & Hc & ->). exact Hc.
Qed.

Lemma _endsWith_spec (str : string) (c : ascii) :
  _endsWith str (String c "") = true <-> exists r, str = r +:+ String c "".
Proof.
  unfold _endsWith. rewrite bool_decide_eq_true. apply slice_last_one.
Qed.

Section Rooting.
Context `{Host}.

Lemma drive_test_spec (root : string) :
  win32 && test_drive_only root = true <-> bare_drive_letter root.
Proof.
  unfold bare_drive_letter. rewrite andb_true_iff, test_drive_only_spec. done.
Qed.

Lemma separator_test_spec (root : string) :
  _endsWith root "/" || (win32 && _endsWith root "\") = true
  <-> ends_in_separator root.
Proof.
  unfold ends_in_separator.
  rewrite orb_true_iff, andb_true_iff, !_endsWith_spec. done.
Qed.

Lemma _ensureRooted_returns (root p : string) :
  root <> "" -> p <> "" -> exists r, _ensureRooted root p = Ret r.
Proof.
  intros Hroot Hp. unfold _ensureRooted.
  destruct (decide (root = "")); [done|]. destruct (decide (p = "")); [done|].
  destruct (_isRooted_returns p Hp) as [rooted ->]. simpl.
  destruct rooted; [eauto|].
  destruct (win32 && test_drive_only root); [eauto|].
  destruct (_endsWith root "/" || _); eauto.
Qed.

Lemma root_pattern_returns (patternRoot : option string) (options : MatchOptions)
    (pattern : string) :
  pattern <> "" -> exists r, root_pattern patternRoot options pattern = Ret r.
Proof.
  intros Hp. unfold root_pattern. destruct patternRoot as [root|]; [|eauto].
  destruct (decide (root = "")); [eauto|].
  destruct (_isRooted_returns pattern Hp) as [rooted ->]. simpl.
  destruct (negb rooted && _); [|eauto]. by apply _ensureRooted_returns.
Qed.

(** C8. With a [patternRoot] supplied, and [matchBase] off or a separator in
    the pattern, a pattern that is already rooted is left as it is, and any
    other becomes the root followed by the pattern: directly when the root
    is a bare drive letter or already ends in a separator, with exactly one
    [path.sep] between them otherwise. *)
Theorem root_pattern_cases (root : string) (options : MatchOptions)
    (pattern : string) :
  root <> "" ->
  pattern <> "" ->
  matchBase options = false
  \/ includes "/" (if win32 then replace_all "\" "/" pattern else pattern) = true ->
  exists effective,
    root_pattern (Some root) options pattern = Ret effective
    /\ (starts_rooted pattern = true -> effective = pattern)
    /\ (starts_rooted pattern = false -> bare_drive_letter root ->
        effective = root +:+ pattern)
    /\ (starts_rooted pattern = false -> ends_in_separator root ->
        effective = root +:+ pattern)
    /\ (starts_rooted pattern = false -> ~ bare_drive_letter root ->
        ~ ends_in_separator root ->
        effective = root +:+ path_sep +:+ pattern).
Proof.
  intros Hroot Hp Hbase.
  unfold root_pattern, _ensureRooted.
  destruct (decide (root = "")); [done|]. destruct (decide (pattern = "")); [done|].
  rewrite _isRooted_spec by done. simpl.
  assert (negb (matchBase options)
          || includes "/" (if win32 then replace_all "\" "/" pattern else pattern)
          = true) as ->.
  { destruct Hbase as [-> | ->]; [done|]. apply orb_true_r. }
  rewrite andb_true_r.
  destruct (starts_rooted pattern); simpl.
  { exists pattern. repeat split; done. }
  destruct (win32 && test_drive_only root) eqn:Hdrive.
  { apply drive_test_spec in Hdrive. exists (root +:+ pattern).
    repeat split; done. }
  destruct (_endsWith root "/" || _) eqn:Hsep.
  { apply separator_test_spec in Hsep. exists (root +:+ pattern).
    repeat split; done. }
  exists ((root +:+ path_sep) +:+ pattern).
  repeat split; try done.
  - intros _ Hd%drive_test_spec. congruence.
  - intros _ Hs%separator_test_spec. congruence.
  - intros _ _ _. apply append_assoc.
Qed.
End Rooting.

Lemma root_pattern_cases_witness :
  (exists effective,
     @root_pattern posix (Some "/a/b") (@_getDefaultMatchOptions posix) "*.txt"
     = Ret effective
     /\ (@starts_rooted posix "*.txt" = true -> effective = "*.txt")
     /\ (@starts_rooted posix "*.txt" = false -> @bare_drive_letter posix "/a/b" ->
         effective = "/a/b" +:+ "*.txt")
     /\ (@starts_rooted posix "*.txt" = false -> @ends_in_separator posix "/a/b" ->
         effective = "/a/b" +:+ "*.txt")
     /\ (@starts_rooted posix "*.txt" = false -> ~ @bare_drive_letter posix "/a/b" ->
         ~ @ends_in_separator posix "/a/b" ->
         effective = "/a/b" +:+ @path_sep posix +:+ "*.txt"))
  /\ @root_pattern posix (Some "/a/b") (@_getDefaultMatchOptions posix) "*.txt"
     = Ret "/a/b/*.txt"
  /\ @root_pattern posix (Some "/a/b") (@_getDefaultMatchOptions posix) "/x/*.txt"
     = Ret "/x/*.txt"
  /\ @root_pattern windows (Some "C:") (@_getDefaultMatchOptions windows) "*.txt"
     = Ret "C:*.txt".
Proof.
  split; [|repeat split; reflexivity].
  apply (@root_pattern_cases posix "/a/b" (@_getDefaultMatchOptions posix) "*.txt").
  - discriminate.
  - discriminate.
  - left. reflexivity.
Defined.

(** ** Loops *)

Lemma for_of_app {A S} (body : S -> A -> outcome S) (xs ys : list A) (acc : S) :
  for_of body (xs ++ ys) acc = acc' ← for_of body xs acc; for_of body ys acc'.
Proof.
  revert acc. induction xs as [|x xs IH]; intros acc; simpl; [done|].
  destruct (body acc x) as [acc'|e]; simpl; [apply IH|done].
Qed.

Lemma for_of_returns {A S} (body : S -> A -> outcome S) (xs : list A) (acc : S) :
  (forall acc x, exists acc', body acc x = Ret acc') ->
  exists acc', for_of body xs acc = Ret acc'.
Proof.
  intros Hbody. revert acc. induction xs as [|x xs IH]; intros acc; simpl; [eauto|].
  destruct (Hbody acc x) as [acc' ->]. simpl. apply IH.
Qed.

Lemma for_of_invariant {A S} (P : S -> Prop) (body : S -> A -> outcome S)
    (xs : list A) (acc acc' : S) :
  (forall acc x acc', P acc -> body acc x = Ret acc' -> P acc') ->
  P acc -> for_of body xs acc = Ret acc' -> P acc'.
Proof.
  intros Hbody. revert acc. induction xs as [|x xs IH]; intros acc Hacc; simpl.
  - by intros [= <-].
  - destruct (body acc x) as [acc1|e] eqn:Hx; simpl; [|done].
    apply IH. by apply (Hbody acc x).
Qed.

Lemma for_of_related {A S1 S2} (R : S1 -> S2 -> Prop)
    (body1 : S1 -> A -> outcome S1) (body2 : S2 -> A -> outcome S2)
    (xs : list A) (acc1 acc1' : S1) (acc2 : S2) :
  (forall acc1 acc2 x acc1',
      R acc1 acc2 -> body1 acc1 x = Ret acc1' ->
      exists acc2', body2 acc2 x = Ret acc2' /\ R acc1' acc2') ->
  R acc1 acc2 ->
  for_of body1 xs acc1 = Ret acc1' ->
  exists acc2', for_of body2 xs acc2 = Ret acc2' /\ R acc1' acc2'.
Proof.
  intros Hbody. revert acc1 acc2.
  induction xs as [|x xs IH]; intros acc1 acc2 HR; simpl.
  - intros [= <-]. eauto.
  - destruct (body1 acc1 x) as [acc1x|e] eqn:Hx; simpl; [|done].
    destruct (Hbody _ _ _ _ HR Hx) as (acc2x & -> & HRx). simpl.
    by apply IH.
Qed.

Lemma array_filter_sublist {A} (cb : A -> outcome bool) (xs result : list A) :
  array_filter cb xs = Ret result -> result `sublist_of` xs.
Proof.
  revert result. induction xs as [|x xs IH]; intros result; simpl.
  - intros [= <-]. constructor.
  - destruct (cb x) as [keep|e]; simpl; [|done].
    destruct (array_filter cb xs) as [rest|e]; simpl; [|done].
    intros [= <-]. destruct keep; [apply sublist_skip|apply sublist_cons]; by apply IH.
Qed.

(** ** Objects *)

Lemma obj_hasOwnProperty_inherited (map : JsObject) (k : string) :
  map !! "hasOwnProperty" = None ->
  obj_hasOwnProperty map k = Ret (bool_decide (is_Some (map !! k))).
Proof. intros Hown. unfold obj_hasOwnProperty. by rewrite Hown. Qed.

Lemma array_filter_hasOwnProperty (map : JsObject) (list : list string) :
  map !! "hasOwnProperty" = None ->
  array_filter (obj_hasOwnProperty map) list
  = Ret (filter (fun item => is_Some (map !! item)) list).
Proof.
  intros Hown. induction list as [|item list IH]; [done|].
  cbn [array_filter]. rewrite IH, obj_hasOwnProperty_inherited by done.
  simpl. rewrite filter_cons.
  by destruct (decide (is_Some (map !! item)));
    [rewrite bool_decide_eq_true_2|rewrite bool_decide_eq_false_2].
Qed.

Lemma array_filter_not_a_function (map : JsObject) (list : list string) :
  is_Some (map !! "hasOwnProperty") ->
  list <> [] ->
  array_filter (obj_hasOwnProperty map) list = Throw not_a_function.
Proof.
  intros [v Hown] Hlist. destruct list as [|item list]; [done|].
  cbn [array_filter]. unfold obj_hasOwnProperty. rewrite Hown. reflexivity.
Qed.

Lemma fold_obj_set_lookup (keys : list string) (map : JsObject) (k : string) :
  fold_left (fun map key => obj_set key true map) keys map !! k
  = if decide (k ∈ keys /\ k <> "__proto__") then Some true else map !! k.
Proof.
  revert map. induction keys as [|key keys IH]; intros map; cbn [fold_left].
  - rewrite decide_False; [done|]. intros [Hk _]. by apply elem_of_nil in Hk.
  - rewrite IH. unfold obj_set.
    destruct (decide (k ∈ keys /\ k <> "__proto__")) as [[Hin Hk]|Hnot].
    + rewrite decide_True; [done|]. split; [by right|done].
    + destruct (decide (key = "__proto__")) as [->|Hkey].
      * rewrite decide_False; [done|].
        intros [[->|Hin]%elem_of_cons Hk]; [done|]. by apply Hnot.
      * destruct (decide (k = key)) as [->|Hne].
        -- rewrite lookup_insert_eq. rewrite decide_True; [done|].
           split; [by left|done].
        -- rewrite lookup_insert_ne by done. rewrite decide_False; [done|].
           intros [[->|Hin]%elem_of_cons Hk]; [done|]. by apply Hnot.
Qed.

Lemma fold_obj_delete_lookup (keys : list string) (map : JsObject) (k : string) :
  fold_left (fun map key => obj_delete key map) keys map !! k
  = if decide (k ∈ keys) then None else map !! k.
Proof.
  revert map. induction keys as [|key keys IH]; intros map; cbn [fold_left].
  - rewrite decide_False; [done|]. apply not_elem_of_nil.
  - rewrite IH. unfold obj_delete.
    destruct (decide (k ∈ keys)) as [Hin|Hnot].
    + rewrite decide_True; [done|]. by right.
    + destruct (decide (k = key)) as [->|Hne].
      * rewrite lookup_delete_eq. rewrite decide_True; [done|]. by left.
      * rewrite lookup_delete_ne by done. rewrite decide_False; [done|].
        intros [->|Hin]%elem_of_cons; done.
Qed.

(** ** [match] *)

Lemma _cloneMatchOptions_id (options : MatchOptions) :
  _cloneMatchOptions options = options.
Proof. by destruct options. Qed.

Lemma filter_all {A} (P : A -> Prop) `{forall x, Decision (P x)} (l : list A) :
  Forall P l -> filter P l = l.
Proof.
  induction 1 as [|x l Hx _ IH]; [done|].
  by rewrite filter_cons_True, IH.
Qed.

Lemma isIncludePattern_parity (negateCount : nat) (flipNegate : bool) :
  isIncludePattern negateCount flipNegate
  = (negateCount =? 0) || xorb (Nat.even negateCount) flipNegate.
Proof.
  unfold isIncludePattern.
  assert (Nat.even negateCount = Nat.even (negateCount mod 2)) as ->.
  { rewrite (Nat.div_mod_eq negateCount 2) at 1.
    by rewrite Nat.add_comm, Nat.even_add_mul_2. }
  pose proof (Nat.mod_upper_bound negateCount 2).
  destruct (negateCount mod 2) as [|[|m]]; simpl; try lia;
    by destruct (negateCount =? 0), flipNegate.
Qed.

Section MatchFacts.
Context `{Host} `{Minimatch}.

Lemma match_expanded_returns list patternRoot options isInclude map pattern :
  exists map',
    match_expanded list patternRoot options isInclude map pattern = Ret map'.
Proof.
  unfold match_expanded. destruct (decide (trim pattern = "")); [eauto|].
  destruct (root_pattern_returns patternRoot options (trim pattern)) as [r ->];
    [done|].
  simpl. destruct isInclude; eauto.
Qed.

(** What one expanded pattern does to the map. The matches are those of
    the whole [list], whatever the map holds: an include pattern sets each
    of them, except the key ["__proto__"], and an exclude pattern deletes
    each of them. *)
Lemma match_expanded_include list patternRoot options map pattern rooted :
  trim pattern <> "" ->
  root_pattern patternRoot options (trim pattern) = Ret rooted ->
  exists map',
    match_expanded list patternRoot options true map pattern = Ret map'
    /\ forall k,
         map' !! k
         = if decide (k ∈ minimatch_match list rooted options /\ k <> "__proto__")
           then Some true else map !! k.
Proof.
  intros Hpattern Hrooted. unfold match_expanded.
  destruct (decide (trim pattern = "")); [done|]. rewrite Hrooted. simpl.
  eexists. split; [done|]. intros k. apply fold_obj_set_lookup.
Qed.

Lemma match_expanded_exclude list patternRoot options map pattern rooted :
  trim pattern <> "" ->
  root_pattern patternRoot options (trim pattern) = Ret rooted ->
  exists map',
    match_expanded list patternRoot options false map pattern = Ret map'
    /\ forall k,
         map' !! k
         = if decide (k ∈ minimatch_match list rooted options)
           then None else map !! k.
Proof.
  intros Hpattern Hrooted. unfold match_expanded.
  destruct (decide (trim pattern = "")); [done|]. rewrite Hrooted. simpl.
  eexists. split; [done|]. intros k. apply fold_obj_delete_lookup.
Qed.

Lemma match_pattern_returns list patternRoot options map pattern :
  exists map', match_pattern list patternRoot options map pattern = Ret map'.
Proof.
  unfold match_pattern. destruct (decide (trim pattern = "")); [eauto|].
  destruct (negb _ && _); [eauto|].
  destruct (if negb _ then _ else _) as [negateCount stripped].
  apply for_of_returns. intros. apply match_expanded_returns.
Qed.

(** [match] throws nothing but the [TypeError] of a shadowed
    [hasOwnProperty]: [_isRooted] and [_ensureRooted] are never given an
    empty string. *)
Lemma match_throws_only_not_a_function list patterns patternRoot options e :
  match_ list patterns patternRoot options = Throw e -> e = not_a_function.
Proof.
  unfold match_.
  match goal with
  | |- context [for_of ?body ?xs ?acc] =>
      destruct (for_of_returns body xs acc) as [map ->]
  end.
  { intros. apply match_pattern_returns. }
  simpl. destruct (map !! "hasOwnProperty") as [v|] eqn:Hown.
  - destruct list as [|item list]; [done|].
    rewrite array_filter_not_a_function by (eauto || done). congruence.
  - by rewrite array_filter_hasOwnProperty.
Qed.

(** C2. What [match] returns is obtained from [list] by deleting
    elements: it has only elements of [list], in the order of [list], and
    each position of [list] at most once, however many patterns matched
    it; when [list] has no repetition, neither has the result. *)
Theorem match_subsequence list patterns patternRoot options result :
  match_ list patterns patternRoot options = Ret result ->
  result `sublist_of` list
  /\ (forall item, item ∈ result -> item ∈ list)
  /\ (NoDup list -> NoDup result).
Proof.
  unfold match_. destruct (for_of _ _ _) as [map|e]; simpl; [|done].
  intros Hsub%array_filter_sublist. split; [done|]. split.
  - intros item. by apply sublist_subseteq.
  - intros Hdup. by apply (sublist_NoDup result list).
Qed.

(** C5, as amended. With negation enabled, a pattern that is not skipped
    and has [n] leading ['!'] is applied, with those stripped, as an
    include pattern when [n] is 0, and otherwise when [n] is even and
    [flipNegate] is off or [n] is odd and [flipNegate] is on; as an
    exclude pattern in the other cases. So, with [flipNegate] off,
    ["!!foo"] is applied exactly as ["foo"], and ["!foo"] is ["foo"]
    applied as an exclude pattern. *)
Theorem negation_parity list patternRoot options map pattern :
  nonegate options = false ->
  trim pattern <> "" ->
  (nocomment options = false -> _startsWith (trim pattern) "#" = false) ->
  match_pattern list patternRoot options map pattern
  = for_of
      (match_expanded list patternRoot (locked options)
         ((count_bangs (trim pattern) =? 0)
          || xorb (Nat.even (count_bangs (trim pattern))) (flipNegate options)))
      (expand_braces options
         (substring_from (count_bangs (trim pattern)) (trim pattern)))
      map
  /\ (flipNegate options = false ->
      match_pattern list patternRoot options map "!!foo"
      = match_pattern list patternRoot options map "foo"
      /\ match_pattern list patternRoot options map "!foo"
         = for_of (match_expanded list patternRoot (locked options) false)
                  (expand_braces options "foo") map).
Proof.
  intros Hnegate Hpattern Hcomment. split.
  - unfold match_pattern. destruct (decide (trim pattern = "")); [done|].
    rewrite _cloneMatchOptions_id, Hnegate.
    destruct (nocomment options); simpl.
    + by rewrite isIncludePattern_parity.
    + rewrite Hcomment by done. by rewrite isIncludePattern_parity.
  - intros Hflip. unfold match_pattern. rewrite _cloneMatchOptions_id.
    rewrite Hnegate, Hflip. simpl.
    change (_startsWith "!!foo" "#") with false.
    change (_startsWith "!foo" "#") with false.
    change (_startsWith "foo" "#") with false.
    rewrite !andb_false_r. done.
Qed.
End MatchFacts.

Section Idempotence.
Context `{Host} `{Minimatch}.
Variable test : string -> MatchOptions -> string -> bool.
Hypothesis Hper : per_path test.

Lemma match_expanded_agree list1 list2 patternRoot options isInclude
    map1 map2 pattern map1' :
  nonull options = false ->
  agree list1 list2 map1 map2 ->
  match_expanded list1 patternRoot options isInclude map1 pattern = Ret map1' ->
  exists map2',
    match_expanded list2 patternRoot options isInclude map2 pattern = Ret map2'
    /\ agree list1 list2 map1' map2'.
Proof using Hper.
  intros Hnull Hagree. unfold match_expanded.
  destruct (decide (trim pattern = "")); [intros [= <-]; eauto|].
  destruct (root_pattern patternRoot options (trim pattern)) as [rooted|e];
    simpl; [|done].
  rewrite !Hper by done.
  destruct isInclude; intros [= <-]; eexists; (split; [done|]);
    intros k Hk1 Hk2.
  - rewrite !fold_obj_set_lookup, (Hagree k) by done.
    apply decide_ext. rewrite !list_elem_of_filter. tauto.
  - rewrite !fold_obj_delete_lookup, (Hagree k) by done.
    apply decide_ext. rewrite !list_elem_of_filter. tauto.
Qed.

Lemma match_expanded_keys list patternRoot options isInclude map pattern map' :
  nonull options = false ->
  keys_within list map ->
  match_expanded list patternRoot options isInclude map pattern = Ret map' ->
  keys_within list map'.
Proof using Hper.
  intros Hnull Hkeys. unfold match_expanded.
  destruct (decide (trim pattern = "")); [by intros [= <-]|].
  destruct (root_pattern patternRoot options (trim pattern)) as [rooted|e];
    simpl; [|done].
  rewrite Hper by done.
  destruct isInclude; intros [= <-] k.
  - rewrite fold_obj_set_lookup.
    destruct (decide _) as [[Hk _]|_]; [|apply Hkeys].
    intros _. by apply list_elem_of_filter in Hk as [_ Hk].
  - rewrite fold_obj_delete_lookup.
    destruct (decide _); [by intros [? ?]|apply Hkeys].
Qed.

Lemma match_pattern_agree list1 list2 patternRoot options map1 map2 pattern map1' :
  nonull options = false ->
  agree list1 list2 map1 map2 ->
  match_pattern list1 patternRoot options map1 pattern = Ret map1' ->
  exists map2',
    match_pattern list2 patternRoot options map2 pattern = Ret map2'
    /\ agree list1 list2 map1' map2'.
Proof using Hper.
  intros Hnull Hagree. unfold match_pattern.
  destruct (decide (trim pattern = "")); [intros [= <-]; eauto|].
  destruct (negb _ && _); [intros [= <-]; eauto|].
  destruct (if negb _ then _ else _) as [negateCount stripped].
  apply for_of_related; [|done].
  intros ? ? ? ?. apply match_expanded_agree.
  by rewrite _cloneMatchOptions_id.
Qed.

Lemma match_pattern_keys list patternRoot options map pattern map' :
  nonull options = false ->
  keys_within list map ->
  match_pattern list patternRoot options map pattern = Ret map' ->
  keys_within list map'.
Proof using Hper.
  intros Hnull Hkeys. unfold match_pattern.
  destruct (decide (trim pattern = "")); [by intros [= <-]|].
  destruct (negb _ && _); [by intros [= <-]|].
  destruct (if negb _ then _ else _) as [negateCount stripped].
  apply for_of_invariant; [|done].
  intros ? ? ?. apply match_expanded_keys.
  by rewrite _cloneMatchOptions_id.
Qed.

(** C9, as amended. When [nonull] is off, as it is by default, and
    [minimatch.match] keeps each path on a test of that path alone, then
    whenever [match] returns [result] for [list], [match] returns
    [result] for [result]. *)
Theorem match_idempotent list patterns patternRoot options result :
  nonull (default _getDefaultMatchOptions options) = false ->
  match_ list patterns patternRoot options = Ret result ->
  match_ result patterns patternRoot options = Ret result.
Proof using Hper.
  intros Hnull. unfold match_.
  set (o := default _getDefaultMatchOptions options) in *.
  set (ps := match patterns with
             | OnePattern pattern => [pattern]
             | Patterns patterns => patterns
             end).
  destruct (for_of (match_pattern list patternRoot o) ps ∅) as [map1|e] eqn:Hmap1;
    simpl; [|done].
  intros Hresult.
  destruct (for_of_related (agree list result)
              (match_pattern list patternRoot o)
              (match_pattern result patternRoot o) ps ∅ map1 ∅)
    as (map2 & Hmap2 & Hagree); [|done|done|].
  { intros ? ? ? ?. by apply match_pattern_agree. }
  assert (keys_within list map1) as Hkeys1.
  { apply (for_of_invariant (keys_within list)
             (match_pattern list patternRoot o) ps ∅ map1); [|by intros k [? ?]|done].
    intros ? ? ?. by apply match_pattern_keys. }
  assert (keys_within result map2) as Hkeys2.
  { apply (for_of_invariant (keys_within result)
             (match_pattern result patternRoot o) ps ∅ map2);
      [|by intros k [? ?]|done].
    intros ? ? ?. by apply match_pattern_keys. }
  rewrite Hmap2. simpl.
  destruct (map1 !! "hasOwnProperty") as [v|] eqn:Hown1.
  { assert ("hasOwnProperty" ∈ list) as Hin by (apply Hkeys1; eauto).
    rewrite array_filter_not_a_function in Hresult; [done|eauto|].
    intros ->. by apply elem_of_nil in Hin. }
  rewrite array_filter_hasOwnProperty in Hresult by done.
  injection Hresult as Hresult.
  assert (map2 !! "hasOwnProperty" = None) as Hown2.
  { destruct (map2 !! "hasOwnProperty") as [v|] eqn:Hown2; [|done].
    assert ("hasOwnProperty" ∈ result) as Hin by (apply Hkeys2; eauto).
    rewrite <- Hresult in Hin. apply list_elem_of_filter in Hin as [[? Hv] _].
    congruence. }
  rewrite array_filter_hasOwnProperty by done. f_equal.
  apply filter_all, Forall_forall. intros item Hitem.
  pose proof Hitem as Hitem'. rewrite <- Hresult in Hitem'.
  apply list_elem_of_filter in Hitem' as [Hsome Hlist].
  by rewrite <- (Hagree item).
Qed.
End Idempotence.

Lemma glob_minimatch_per_path :
  @per_path glob_minimatch (fun pattern _ f => glob pattern None f).
Proof. intros list pattern options Hnull. simpl. by rewrite Hnull. Qed.

(** Three patterns match [a.txt]; it is kept once, in its place. *)
Lemma match_subsequence_witness :
  @match_ posix glob_minimatch ["b.log"; "a.txt"; "c.txt"]
    (Patterns ["*.txt"; "a*"; "a.txt"]) None None
  = Ret ["a.txt"; "c.txt"]
  /\ ["a.txt"; "c.txt"] `sublist_of` ["b.log"; "a.txt"; "c.txt"]
  /\ (forall item, item ∈ ["a.txt"; "c.txt"] -> item ∈ ["b.log"; "a.txt"; "c.txt"])
  /\ (NoDup ["b.log"; "a.txt"; "c.txt"] -> NoDup ["a.txt"; "c.txt"]).
Proof.
  split; [reflexivity|].
  apply (@match_subsequence posix glob_minimatch ["b.log"; "a.txt"; "c.txt"]
           (Patterns ["*.txt"; "a*"; "a.txt"]) None None).
  reflexivity.
Defined.

(** A path that occurs twice in the list is two elements of it, and each
    is kept. *)
Example match_keeps_repeated_path :
  @match_ posix glob_minimatch ["a.txt"; "b.log"; "a.txt"]
    (Patterns ["*.txt"; "a*"]) None None
  = Ret ["a.txt"; "a.txt"].
Proof. reflexivity. Qed.

Lemma match_idempotent_witness :
  @match_ posix glob_minimatch ["root/f1.txt"; "root/f2.log"; "root/sub/f3.txt"]
    (Patterns ["root/*"; "!root/*.log"]) None None
  = Ret ["root/f1.txt"]
  /\ @match_ posix glob_minimatch ["root/f1.txt"]
       (Patterns ["root/*"; "!root/*.log"]) None None
     = Ret ["root/f1.txt"].
Proof.
  split; [reflexivity|].
  apply (@match_idempotent posix glob_minimatch _ glob_minimatch_per_path
           ["root/f1.txt"; "root/f2.log"; "root/sub/f3.txt"]);
    reflexivity.
Defined.

Lemma negation_parity_witness :
  @match_pattern posix glob_minimatch ["foo"; "bar"] None
    (@_getDefaultMatchOptions posix) {["foo" := true; "bar" := true]} "!!!foo"
  = Ret {["bar" := true]}.
Proof.
  destruct (@negation_parity posix glob_minimatch ["foo"; "bar"] None
              (@_getDefaultMatchOptions posix) {["foo" := true; "bar" := true]}
              "!!!foo") as [-> _]; [reflexivity|discriminate|reflexivity|].
  vm_compute. reflexivity.
Defined.

(** C5, as stated, fails: with [flipNegate] on, ["foo"], which has an even
    number of leading ['!'], is still an include pattern. *)
Lemma flipNegate_keeps_plain_include :
  count_bangs "foo" = 0
  /\ isIncludePattern (count_bangs "foo") true = true
  /\ negb (Nat.even (count_bangs "foo")) = false
  /\ @match_ posix glob_minimatch ["foo"; "bar"] (OnePattern "foo") None
       (Some (@with_flipNegate posix true))
     = Ret ["foo"].
Proof. repeat split; reflexivity. Qed.

(** C9, as stated, fails: with [nonull] on, the exclude pattern ["[b]"]
    removes ["b"] in the first pass; in the second nothing matches it, so
    [minimatch.match] returns the pattern itself, and the path ["[b]"] is
    removed. *)
Lemma match_not_idempotent_nonull :
  @match_ posix glob_minimatch ["a"; "b"; "[b]"] (Patterns ["*"; "![b]"]) None
    (Some (@with_nonull posix true))
  = Ret ["a"; "[b]"]
  /\ @match_ posix glob_minimatch ["a"; "[b]"] (Patterns ["*"; "![b]"]) None
       (Some (@with_nonull posix true))
     = Ret ["a"].
Proof. split; reflexivity. Qed.

(** C1: the include pattern ["*"] matches both paths of the list, and the
    match ["__proto__"] does not reach the result. *)
Lemma match_include_loses_proto_key :
  @minimatch_match glob_minimatch ["__proto__"; "x"] "*"
    (locked (@_getDefaultMatchOptions posix))
  = ["__proto__"; "x"]
  /\ @match_ posix glob_minimatch ["__proto__"; "x"] (OnePattern "*") None None
     = Ret ["x"].
Proof. split; reflexivity. Qed.

(** * Further properties *)

(** ** [mkdirP] *)

Section MkdirPFacts.
Context `{FileSystem} `{Process} `{DirMaker}.

Lemma ancestors_S (k : nat) (p : string) :
  ancestors (S k) p = p :: ancestors k (dirname p).
Proof.
  unfold ancestors. simpl. f_equal.
  rewrite <- seq_shift, map_map. apply map_ext. intros i.
  by rewrite Nat.iter_succ_r.
Qed.

Lemma ancestors_snoc (k : nat) (p : string) :
  ancestors (S k) p = ancestors k p ++ [Nat.iter k dirname p].
Proof. unfold ancestors. by rewrite seq_S, map_app. Qed.

Lemma ancestors_length (k : nat) (p : string) : length (ancestors k p) = k.
Proof. unfold ancestors. by rewrite length_map, length_seq. Qed.

Lemma create_dirs_all (p : string) (dirs : list string) :
  makeable dirs ->
  forall (popped created : list string) (calls : list DirCall),
    dirs = created ++ popped ->
    create_dirs p popped created calls = (calls ++ map Make popped, Ret tt).
Proof.
  intros Hmake popped. induction popped as [|dir popped IH];
    intros created calls Hdirs; simpl.
  - by rewrite app_nil_r.
  - assert (mkdirSync created dir = Ret tt) as ->.
    { specialize (Hmake (length created) dir).
      rewrite Hdirs, take_app_length in Hmake. apply Hmake.
      by rewrite lookup_app_r, Nat.sub_diag. }
    rewrite IH; [by rewrite <- app_assoc|]. by rewrite <- app_assoc.
Qed.

Lemma create_dirs_fails (p : string) (dirs : list string) (j : nat) (d : string)
    (err : JsError) :
  makeable (take j dirs) ->
  dirs !! j = Some d ->
  mkdirSync (take j dirs) d = Throw err ->
  forall (popped created : list string) (calls : list DirCall),
    dirs = created ++ popped ->
    length created <= j ->
    create_dirs p popped created calls
    = (calls ++ map Make (take (S j - length created) popped),
       Throw (new_Error ("Unable to create directory " +:+ p +:+ " . "
                         +:+ message err))).
Proof.
  intros Hmake Hd Herr popped. induction popped as [|dir popped IH];
    intros created calls Hdirs Hlen.
  - rewrite app_nil_r in Hdirs. subst created.
    apply lookup_lt_Some in Hd. lia.
  - simpl. destruct (decide (length created = j)) as [<-|Hne].
    + assert (dir = d) as ->.
      { rewrite Hdirs, lookup_app_r, Nat.sub_diag in Hd by done. by injection Hd. }
      rewrite Hdirs, take_app_length in Herr. rewrite Herr.
      replace (S (length created) - length created) with 1 by lia.
      done.
    + assert (mkdirSync created dir = Ret tt) as ->.
      { specialize (Hmake (length created) dir).
        rewrite take_take in Hmake.
        replace (length created `min` j) with (length created) in Hmake by lia.
        rewrite Hdirs, take_app_length in Hmake. apply Hmake.
        rewrite lookup_take_lt by lia.
        by rewrite lookup_app_r, Nat.sub_diag. }
      rewrite IH.
      * rewrite length_app. simpl.
        replace (S j - length created) with (S (j - length created)) by lia.
        simpl. rewrite <- app_assoc. simpl.
        by replace (S j - (length created + 1)) with (j - length created) by lia.
      * by rewrite <- app_assoc.
      * rewrite length_app. simpl. lia.
Qed.

(** The first loop climbs over [k] missing directories. *)
Lemma mkdirP_loop_climbs (p : string) (k : nat) :
  forall (fuel : nat) (stack : list string) (testDir : string)
         (calls : list DirCall),
    Forall missing (ancestors k testDir) ->
    (forall n, length stack <= n < length stack + k -> failsafe_reached n = false) ->
    mkdirP_loop (k + fuel) p stack testDir calls
    = mkdirP_loop fuel p (stack ++ ancestors k testDir)
        (Nat.iter k dirname testDir) (calls ++ map Probe (ancestors k testDir)).
Proof.
  induction k as [|k IH]; intros fuel stack testDir calls Hmiss Hsafe.
  - simpl. by rewrite !app_nil_r.
  - rewrite Nat.iter_succ_r.
    rewrite ancestors_S in *. apply Forall_cons in Hmiss as [Hhere Hmiss].
    destruct Hhere as [(err & Hstat & Hcode) Hparent].
    simpl mkdirP_loop. rewrite Hsafe by lia. rewrite Hstat.
    rewrite decide_True by done. rewrite decide_False by done.
    rewrite IH; [|done|].
    + unfold push. by rewrite <- !app_assoc.
    + intros n Hn. apply Hsafe. unfold push in Hn. rewrite length_app in Hn.
      simpl in Hn. lia.
Qed.
End MkdirPFacts.

Section MkdirPTheorems.
Context `{FileSystem} `{Process} `{DirMaker}.

Lemma create_dirs_calls (p : string) :
  forall (popped created : list string) (calls : list DirCall),
    exists j, fst (create_dirs p popped created calls)
              = calls ++ map Make (take j popped).
Proof.
  intros popped. induction popped as [|dir popped IH]; intros created calls; simpl.
  - exists 0. by rewrite app_nil_r.
  - destruct (mkdirSync created dir) as [[]|err].
    + destruct (IH (created ++ [dir]) (calls ++ [Make dir])) as [j ->].
      exists (S j). by rewrite <- app_assoc.
    + by exists 1.
Qed.

Lemma mkdirP_loop_two_phase (p : string) (fuel : nat) :
  forall (stack : list string) (testDir : string) (ps : list string),
    Forall (fun q => exists n, q = Nat.iter n dirname p) stack ->
    (exists n, testDir = Nat.iter n dirname p) ->
    Forall (fun q => exists n, q = Nat.iter n dirname p) ps ->
    exists ps' ms,
      fst (mkdirP_loop fuel p stack testDir (map Probe ps))
      = map Probe ps' ++ map Make ms
      /\ Forall (fun q => exists n, q = Nat.iter n dirname p) (ps' ++ ms).
Proof.
  induction fuel as [|fuel IH]; intros stack testDir ps Hstack Htest Hps.
  - exists ps, []. simpl. by rewrite !app_nil_r.
  - simpl mkdirP_loop. destruct (failsafe_reached (length stack)).
    { exists ps, [p]. split; [done|]. apply Forall_app. split; [done|].
      repeat constructor. by exists 0. }
    assert (Forall (fun q => exists n, q = Nat.iter n dirname p) (ps ++ [testDir]))
      as Hps'.
    { apply Forall_app. split; [done|]. by repeat constructor. }
    assert (map Probe ps ++ [Probe testDir] = map Probe (ps ++ [testDir])) as ->.
    { by rewrite map_app. }
    destruct (statSync testDir) as [st|err].
    + destruct (negb (isDirectory st)).
      { exists (ps ++ [testDir]), []. simpl. by rewrite !app_nil_r. }
      destruct (create_dirs_calls p (rev stack) [] (map Probe (ps ++ [testDir])))
        as [j Hcalls].
      destruct (create_dirs _ _ _ _) as [calls r]. simpl in *. subst calls.
      exists (ps ++ [testDir]), (take j (rev stack)). split; [done|].
      apply Forall_app. split; [done|].
      apply Forall_take. rewrite Forall_forall in *. intros q Hq. apply Hstack.
      apply list_elem_of_In. apply in_rev. by apply list_elem_of_In.
    + destruct (decide (code err = Some "ENOENT")).
      * destruct (decide (testDir = dirname testDir)).
        { exists (ps ++ [testDir]), []. simpl. by rewrite !app_nil_r. }
        apply IH; [|by destruct Htest as [m ->]; exists (S m)|done].
        apply Forall_app. split; [done|]. by repeat constructor.
      * exists (ps ++ [testDir]), [].
        destruct (decide (code err = Some "UNKNOWN")); simpl;
          by rewrite !app_nil_r.
Qed.

Lemma mkdirP_loop_bounded (p : string) (bound : nat) (fuel : nat) :
  failsafe_reached bound = true ->
  forall (stack : list string) (testDir : string) (calls : list DirCall),
    length stack <= bound ->
    bound - length stack < fuel ->
    snd (mkdirP_loop fuel p stack testDir calls) <> None
    /\ length (probes (fst (mkdirP_loop fuel p stack testDir calls)))
       <= length (probes calls) + (bound - length stack).
Proof.
  intros Hbound. induction fuel as [|fuel IH];
    intros stack testDir calls Hlen Hfuel; [lia|].
  simpl mkdirP_loop.
  assert (forall c, length (probes (calls ++ [c])) <= length (probes calls) + 1)
    as Hone.
  { intros c. unfold probes. rewrite omap_app, length_app.
    destruct c; simpl; lia. }
  destruct (failsafe_reached (length stack)) eqn:Hsafe.
  { simpl. split; [done|]. unfold probes. rewrite omap_app, length_app. simpl. lia. }
  assert (length stack < bound) as Hlt.
  { destruct (decide (length stack = bound)) as [Heq|]; [|lia].
    rewrite Heq in Hsafe. congruence. }
  pose proof (Hone (Probe testDir)) as Hprobe.
  destruct (statSync testDir) as [st|err].
  - destruct (negb (isDirectory st)); [simpl; split; [done|lia]|].
    destruct (create_dirs_calls p (rev stack) [] (calls ++ [Probe testDir]))
      as [j Hcalls].
    destruct (create_dirs _ _ _ _) as [calls' r]. simpl in *. subst calls'.
    split; [done|].
    unfold probes in *. rewrite omap_app, length_app.
    assert (omap (fun c => match c with Probe q => Some q | Make _ => None end)
                 (map Make (take j (rev stack))) = []) as ->.
    { induction (take j (rev stack)); simpl; done. }
    simpl. lia.
  - destruct (decide (code err = Some "ENOENT")).
    + destruct (decide (testDir = dirname testDir)); [simpl; split; [done|lia]|].
      destruct (IH (push testDir stack) (dirname testDir)
                  (calls ++ [Probe testDir])) as [Hsome Hcount].
      * unfold push. rewrite length_app. simpl. lia.
      * unfold push. rewrite length_app. simpl. lia.
      * split; [done|]. unfold push in *. rewrite length_app in Hcount.
        cbn [length] in Hcount. lia.
    + destruct (decide (code err = Some "UNKNOWN")); simpl; split; done || lia.
Qed.

(** X1. When [p] and its next [k - 1] parents are missing, the parent above
    them is a directory, and every [mkdirSync] succeeds, [mkdirP] probes
    upwards from [p] to that directory, then makes the missing directories
    from the topmost down to [p], each parent before its child, and
    returns. With [k = 0], [p] is there already and nothing is made. *)
Theorem mkdirP_makes_missing_chain (fuel k : nat) (p : string) (st : Stats) :
  p <> "" ->
  Forall missing (ancestors k p) ->
  statSync (Nat.iter k dirname p) = Ret st ->
  isDirectory st = true ->
  (forall n, n <= k -> failsafe_reached n = false) ->
  makeable (rev (ancestors k p)) ->
  k < fuel ->
  mkdirP fuel p
  = (map Probe (ancestors (S k) p) ++ map Make (rev (ancestors k p)),
     Some (Ret tt)).
Proof.
  intros Hp Hmiss Hstat Hdir Hsafe Hmake Hfuel. unfold mkdirP.
  destruct (decide (p = "")); [done|].
  replace fuel with (k + S (fuel - S k)) by lia.
  rewrite ancestors_snoc, map_app.
  rewrite mkdirP_loop_climbs; [|done|intros m Hm; apply Hsafe; simpl in Hm; lia].
  simpl mkdirP_loop. rewrite ancestors_length, Hsafe by lia.
  rewrite Hstat, Hdir. simpl.
  rewrite (create_dirs_all p (rev (ancestors k p))); [|done|done].
  by rewrite <- app_assoc.
Qed.

(** X2. When the [mkdirSync] of the directory [d] fails after [j] others
    succeeded, [mkdirP] stops there and throws a new [Error] that names [p]
    and carries the message of the failure; the [j] directories made
    before stay made and nothing below [d] is attempted. *)
Theorem mkdirP_partial_on_failure (fuel k j : nat) (p d : string) (st : Stats)
    (err : JsError) :
  p <> "" ->
  Forall missing (ancestors k p) ->
  statSync (Nat.iter k dirname p) = Ret st ->
  isDirectory st = true ->
  (forall n, n <= k -> failsafe_reached n = false) ->
  makeable (take j (rev (ancestors k p))) ->
  rev (ancestors k p) !! j = Some d ->
  mkdirSync (take j (rev (ancestors k p))) d = Throw err ->
  k < fuel ->
  mkdirP fuel p
  = (map Probe (ancestors (S k) p)
     ++ map Make (take j (rev (ancestors k p)) ++ [d]),
     Some (Throw (new_Error ("Unable to create directory " +:+ p +:+ " . "
                             +:+ message err)))).
Proof.
  intros Hp Hmiss Hstat Hdir Hsafe Hmake Hd Herr Hfuel. unfold mkdirP.
  destruct (decide (p = "")); [done|].
  replace fuel with (k + S (fuel - S k)) by lia.
  rewrite ancestors_snoc, map_app.
  rewrite mkdirP_loop_climbs; [|done|intros m Hm; apply Hsafe; simpl in Hm; lia].
  simpl mkdirP_loop. rewrite ancestors_length, Hsafe by lia.
  rewrite Hstat, Hdir. simpl.
  rewrite (create_dirs_fails p (rev (ancestors k p)) j d err);
    [|done|done|done|done|simpl; lia].
  simpl length. rewrite Nat.sub_0_r.
  rewrite (take_S_r _ _ d) by done.
  by rewrite <- app_assoc.
Qed.

(** X3. When [fs.statSync] answers [ENOENT] for the first [k] paths on
    the way up from [p] (with [k = 0], for none), each with a parent other
    than itself, and finds at the next one an entry that is not a
    directory, [mkdirP] throws the conflicting-file error that names [p]
    and that entry, having probed these [k + 1] paths and made no
    directory. With [k = 0] the entry is at [p] itself. A POSIX system
    answers [ENOTDIR], not [ENOENT], for a path below a file, so there the
    case is [k = 0], and a path below a file meets [fs.statSync]'s own
    error instead. *)
Theorem mkdirP_conflicting_file (fuel k : nat) (p : string) (st : Stats) :
  p <> "" ->
  Forall missing (ancestors k p) ->
  statSync (Nat.iter k dirname p) = Ret st ->
  isDirectory st = false ->
  (forall n, n <= k -> failsafe_reached n = false) ->
  k < fuel ->
  mkdirP fuel p
  = (map Probe (ancestors (S k) p),
     Some (Throw (new_Error ("Unable to create directory " +:+ p
                             +:+ ". Conflicting file exists: "
                             +:+ Nat.iter k dirname p)))).
Proof.
  intros Hp Hmiss Hstat Hdir Hsafe Hfuel. unfold mkdirP.
  destruct (decide (p = "")); [done|].
  replace fuel with (k + S (fuel - S k)) by lia.
  rewrite ancestors_snoc, map_app.
  rewrite mkdirP_loop_climbs; [|done|intros m Hm; apply Hsafe; simpl in Hm; lia].
  simpl mkdirP_loop. rewrite ancestors_length, Hsafe by lia.
  by rewrite Hstat, Hdir.
Qed.

(** X4. When every entry up to one that is its own parent is missing, and
    that one too, [mkdirP] throws the missing-root error that names it,
    and makes no directory. *)
Theorem mkdirP_missing_root (fuel k : nat) (p : string) (err : JsError) :
  p <> "" ->
  Forall missing (ancestors k p) ->
  statSync (Nat.iter k dirname p) = Throw err ->
  code err = Some "ENOENT" ->
  dirname (Nat.iter k dirname p) = Nat.iter k dirname p ->
  (forall n, n <= k -> failsafe_reached n = false) ->
  k < fuel ->
  mkdirP fuel p
  = (map Probe (ancestors (S k) p),
     Some (Throw (new_Error ("Unable to create directory " +:+ p
                             +:+ ". Root directory does not exist: "
                             +:+ Nat.iter k dirname p)))).
Proof.
  intros Hp Hmiss Hstat Hcode Hroot Hsafe Hfuel. unfold mkdirP.
  destruct (decide (p = "")); [done|].
  replace fuel with (k + S (fuel - S k)) by lia.
  rewrite ancestors_snoc, map_app.
  rewrite mkdirP_loop_climbs; [|done|intros m Hm; apply Hsafe; simpl in Hm; lia].
  simpl mkdirP_loop. rewrite ancestors_length, Hsafe by lia.
  rewrite Hstat. rewrite decide_True by done. by rewrite decide_True.
Qed.

(** X5. A [statSync] failure whose code is not ENOENT ends [mkdirP] with
    no directory made: with the code UNKNOWN it throws the file-share
    message that names the path, with any other code the exception of
    [statSync] itself, unchanged. *)
Theorem mkdirP_other_stat_error (fuel k : nat) (p : string) (err : JsError) :
  p <> "" ->
  Forall missing (ancestors k p) ->
  statSync (Nat.iter k dirname p) = Throw err ->
  code err <> Some "ENOENT" ->
  (forall n, n <= k -> failsafe_reached n = false) ->
  k < fuel ->
  mkdirP fuel p
  = (map Probe (ancestors (S k) p),
     Some (Throw
       (if decide (code err = Some "UNKNOWN") then
          new_Error
            ("Unable to create directory " +:+ p
             +:+ ". Unable to verify the directory exists: "
             +:+ Nat.iter k dirname p
             +:+ ". If directory is a file share, please verify the share name is correct, the share is online, and the current process has permission to access the share.")
        else err))).
Proof.
  intros Hp Hmiss Hstat Hcode Hsafe Hfuel. unfold mkdirP.
  destruct (decide (p = "")); [done|].
  replace fuel with (k + S (fuel - S k)) by lia.
  rewrite ancestors_snoc, map_app.
  rewrite mkdirP_loop_climbs; [|done|intros m Hm; apply Hsafe; simpl in Hm; lia].
  simpl mkdirP_loop. rewrite ancestors_length, Hsafe by lia.
  rewrite Hstat. rewrite decide_False by done.
  by destruct (decide (code err = Some "UNKNOWN")).
Qed.

(** X6. In every run, whatever the file system does, all [statSync]
    calls of [mkdirP] come before all its [mkdirSync] calls, and every
    path it probes or makes is [p] or comes from [p] by taking parents. *)
Theorem mkdirP_two_phases (fuel : nat) (p : string) :
  exists ps ms,
    fst (mkdirP fuel p) = map Probe ps ++ map Make ms
    /\ forall q, q ∈ ps ++ ms -> exists n, q = Nat.iter n dirname p.
Proof.
  unfold mkdirP. destruct (decide (p = "")).
  { exists [], []. split; [done|]. intros q Hq. by apply elem_of_nil in Hq. }
  destruct (mkdirP_loop_two_phase p fuel [] p []) as (ps & ms & Hcalls & Hanc);
    [done|by exists 0|done|].
  exists ps, ms. split; [done|]. by apply Forall_forall.
Qed.

(** X7. When the fail-safe comparison holds for a stack of [bound] paths
    (1000 when the environment variable is not set), the first loop ends
    within [bound + 1] iterations for every file system and every
    [path.dirname], after at most [bound] calls of [statSync]. *)
Theorem mkdirP_failsafe_terminates (fuel bound : nat) (p : string) :
  failsafe_reached bound = true ->
  bound < fuel ->
  snd (mkdirP fuel p) <> None
  /\ length (probes (fst (mkdirP fuel p))) <= bound.
Proof.
  intros Hbound Hfuel. unfold mkdirP. destruct (decide (p = "")).
  { simpl. split; [done|lia]. }
  destruct (mkdirP_loop_bounded p bound fuel Hbound [] p []) as [Hsome Hcount];
    simpl; [lia|lia|].
  split; [done|]. simpl in Hcount. lia.
Qed.
End MkdirPTheorems.

(** ** More on strings *)

Lemma substring_0_0 (s : string) : String.substring 0 0 s = "".
Proof. by destruct s. Qed.

Lemma slice_to_prefix (a s : string) :
  slice_to (String.length a) s = a <-> exists r, s = a +:+ r.
Proof.
  unfold slice_to. revert s. induction a as [|x a IH]; intros s.
  - simpl. rewrite substring_0_0. split; [eauto|done].
  - destruct s as [|c s]; simpl.
    + split; [done|]. intros [r Hr]. by rewrite append_cons in Hr.
    + split.
      * intros [= -> Ha]. apply IH in Ha as [r ->]. by exists r.
      * intros [r Hr]. rewrite append_cons in Hr. injection Hr as -> ->.
        f_equal. apply IH. eauto.
Qed.

Lemma length_append (r t : string) :
  String.length (r +:+ t) = String.length r + String.length t.
Proof. induction r as [|c r IH]; [done|]. rewrite append_cons. simpl. by rewrite IH. Qed.

Lemma substring_whole (n : nat) (t : string) :
  String.length t <= n -> String.substring 0 n t = t.
Proof.
  revert n. induction t as [|c t IH]; intros n Hn.
  - by destruct n.
  - destruct n as [|n]; simpl in *; [lia|]. rewrite IH; [done|lia].
Qed.

Lemma substring_skip (r t : string) (n : nat) :
  String.substring (String.length r) n (r +:+ t) = String.substring 0 n t.
Proof. induction r as [|c r IH]; [done|]. by rewrite append_cons. Qed.

Lemma split_suffix (s : string) (n : nat) :
  n <= String.length s ->
  exists r t, s = r +:+ t /\ String.length t = n.
Proof.
  induction s as [|c s IH]; intros Hn; simpl in *.
  - exists "", "". split; [done|]. simpl. lia.
  - destruct (decide (n = S (String.length s))) as [->|Hne].
    + by exists "", (String c s).
    + destruct IH as (r & t & -> & Ht); [lia|]. by exists (String c r), t.
Qed.

Lemma append_suffix_inj (r r' t t' : string) :
  r +:+ t = r' +:+ t' -> String.length t = String.length t' -> t = t'.
Proof.
  revert r'. induction r as [|c r IH]; intros [|c' r'] Heq Hlen;
    rewrite ?append_nil_l, ?append_cons in Heq.
  - done.
  - exfalso. rewrite Heq in Hlen. simpl in Hlen. rewrite length_append in Hlen. lia.
  - exfalso. rewrite <- Heq in Hlen. simpl in Hlen. rewrite length_append in Hlen. lia.
  - injection Heq as _ Heq. by apply (IH r').
Qed.

Lemma slice_last_suffix (e s : string) :
  e <> "" ->
  slice_last (String.length e) s = e <-> exists r, s = r +:+ e.
Proof.
  intros He. unfold slice_last.
  assert (String.length e <> 0) as Hlen by (by destruct e).
  rewrite (proj2 (Nat.eqb_neq _ _) Hlen).
  destruct (decide (String.length e <= String.length s)) as [Hle|Hgt].
  - destruct (split_suffix s (String.length e) Hle) as (r & t & -> & Ht).
    rewrite length_append, Ht, Nat.add_sub, substring_skip.
    rewrite substring_whole by lia. split.
    + intros ->. eauto.
    + intros [r' Hr']. by apply (append_suffix_inj r r').
  - replace (String.length s - String.length e) with 0 by lia.
    rewrite substring_whole by lia. split.
    + intros ->. lia.
    + intros [r ->]. rewrite length_append in Hgt. lia.
Qed.

(** *** Runs of separators *)

Lemma no_run_cons (a c d : ascii) (r : string) :
  no_run a (String c (String d r))
  = negb (Ascii.eqb c a && Ascii.eqb d a) && no_run a (String d r).
Proof. reflexivity. Qed.

Lemma collapse_runs_no_run (a : ascii) (s : string) :
  no_run a (collapse_runs a s) = true.
Proof.
  induction s as [|c s IH]; [done|].
  destruct s as [|d s]; [done|]. rewrite collapse_runs_cons.
  destruct (Ascii.eqb c a && Ascii.eqb d a) eqn:Hrun; [done|].
  destruct (collapse_runs_head a d s) as [r' Hr']. rewrite Hr' in *.
  cbv iota. by rewrite no_run_cons, Hrun, IH.
Qed.

Lemma collapse_runs_fixed (a : ascii) (s : string) :
  no_run a s = true -> collapse_runs a s = s.
Proof.
  induction s as [|c s IH]; [done|].
  destruct s as [|d s]; [done|]. rewrite no_run_cons, collapse_runs_cons.
  intros [Hrun Hrest]%andb_true_iff. apply negb_true_iff in Hrun.
  by rewrite Hrun, IH.
Qed.

Lemma collapse_runs_idempotent (a : ascii) (s : string) :
  collapse_runs a (collapse_runs a s) = collapse_runs a s.
Proof. apply collapse_runs_fixed, collapse_runs_no_run. Qed.

Lemma replace_all_free (a b : ascii) (s : string) :
  a <> b -> free_of a (replace_all a b s) = true.
Proof.
  intros Hab. induction s as [|c s IH]; [done|]. simpl. rewrite IH, andb_true_r.
  destruct (Ascii.eqb c a) eqn:Hc; apply negb_true_iff, Ascii.eqb_neq.
  - congruence.
  - by apply Ascii.eqb_neq.
Qed.

Lemma replace_all_fixed (a b : ascii) (s : string) :
  free_of a s = true -> replace_all a b s = s.
Proof.
  induction s as [|c s IH]; [done|]. simpl.
  intros [Hc Hs]%andb_true_iff. apply negb_true_iff in Hc.
  by rewrite Hc, IH.
Qed.

Lemma collapse_runs_free (a b : ascii) (s : string) :
  free_of a s = true -> free_of a (collapse_runs b s) = true.
Proof.
  induction s as [|c s IH]; [done|].
  destruct s as [|d s]; [done|]. rewrite collapse_runs_cons.
  intros Hfree. pose proof Hfree as [Hc Hrest]%andb_true_iff.
  destruct (Ascii.eqb c b && Ascii.eqb d b); [by apply IH|].
  cbn [free_of]. by rewrite Hc, IH.
Qed.

Lemma no_run_not_unc (s : string) : no_run "\" s = true -> test_unc s = false.
Proof.
  destruct s as [|c [|d r]]; [done| |].
  { intros _. by destruct c as [[] [] [] [] [] [] [] []]. }
  rewrite no_run_cons.
  intros [Hrun _]%andb_true_iff. apply negb_true_iff, andb_false_iff in Hrun.
  destruct Hrun as [Hc|Hd].
  - apply Ascii.eqb_neq in Hc. by destruct c as [[] [] [] [] [] [] [] []].
  - apply Ascii.eqb_neq in Hd. simpl.
    destruct c as [[] [] [] [] [] [] [] []]; try done.
    by destruct d as [[] [] [] [] [] [] [] []].
Qed.

Lemma collapse_after_backslashes (r : string) :
  after_backslashes r = true ->
  exists y, collapse_runs "\" (String "\" r) = String "\" y
            /\ after_backslashes y = true.
Proof.
  induction r as [|c r IH]; [done|]. cbn [after_backslashes].
  rewrite collapse_runs_cons, Ascii.eqb_refl. cbn [andb].
  destruct (Ascii.eqb c "\") eqn:Hc.
  - apply Ascii.eqb_eq in Hc as ->. apply IH.
  - intros _.
    destruct (collapse_runs_head "\" c r) as [r' ->].
    exists (String c r'). split; [done|]. cbn [after_backslashes]. by rewrite Hc.
Qed.

Lemma test_unc_inv (s : string) :
  test_unc s = true ->
  exists r, s = String "\" (String "\" r) /\ after_backslashes r = true.
Proof.
  destruct s as [|c [|d r]]; try done.
  - simpl. by destruct c as [[] [] [] [] [] [] [] []].
  - simpl. destruct c as [[] [] [] [] [] [] [] []]; try done.
    destruct d as [[] [] [] [] [] [] [] []]; try done. eauto.
Qed.

(** X8. [_startsWith(str, start)] holds exactly when [str] is [start]
    followed by something; so it holds of every [str] for the empty
    [start]. *)
Theorem startsWith_is_prefix (str start : string) :
  _startsWith str start = true <-> exists r, str = start +:+ r.
Proof.
  unfold _startsWith. rewrite bool_decide_eq_true. apply slice_to_prefix.
Qed.

(** X9. For a non-empty [end], [_endsWith(str, end)] holds exactly when
    [str] is something followed by [end]. For the empty [end],
    [str.slice(-0)] is the whole string, and [_endsWith] holds of the
    empty [str] only. *)
Theorem endsWith_is_suffix (str end_ : string) :
  _endsWith str end_ = true
  <-> if decide (end_ = "") then str = "" else exists r, str = r +:+ end_.
Proof.
  unfold _endsWith. rewrite bool_decide_eq_true.
  destruct (decide (end_ = "")) as [->|Hend]; [done|].
  by apply slice_last_suffix.
Qed.

Section NormalForm.
Context `{Host}.

Lemma _normalizeSeparators_empty (p : string) :
  _normalizeSeparators p = "" <-> p = "".
Proof.
  split.
  - intros Hn. destruct (decide (p = "")) as [|Hp]; [done|].
    by apply _normalizeSeparators_nonempty in Hp.
  - intros ->. unfold _normalizeSeparators. by destruct win32.
Qed.

Lemma _normalizeSeparators_twice (p : string) :
  _normalizeSeparators (_normalizeSeparators p) = _normalizeSeparators p.
Proof.
  unfold _normalizeSeparators. destruct win32; [|apply collapse_runs_idempotent].
  set (p1 := replace_all "/" "\" p).
  assert (free_of "/" (collapse_runs "\" p1) = true) as Hfree.
  { apply collapse_runs_free, replace_all_free. done. }
  destruct (test_unc p1) eqn:Hunc.
  - apply test_unc_inv in Hunc as (r & Hp1 & Hafter).
    destruct (collapse_after_backslashes r Hafter) as (y & Hy & Hy').
    assert (collapse_runs "\" p1 = String "\" y) as Hc.
    { rewrite Hp1, collapse_runs_cons, Ascii.eqb_refl. exact Hy. }
    rewrite append_cons, append_nil_l.
    rewrite replace_all_fixed by (cbn [free_of]; by rewrite Hfree).
    rewrite Hc. cbn [test_unc]. rewrite Hy'.
    rewrite append_cons, append_nil_l. f_equal.
    rewrite collapse_runs_cons, Ascii.eqb_refl. cbn [andb]. rewrite <- Hc.
    apply collapse_runs_idempotent.
  - rewrite !append_nil_l. rewrite replace_all_fixed by done.
    rewrite no_run_not_unc by apply collapse_runs_no_run.
    rewrite append_nil_l. apply collapse_runs_idempotent.
Qed.

(** X10. Normalizing separators twice gives what normalizing once gives,
    on both platforms, so [_isRooted] answers the same for a path and for
    its normal form. *)
Theorem normalizeSeparators_idempotent (p : string) :
  _normalizeSeparators (_normalizeSeparators p) = _normalizeSeparators p
  /\ _isRooted (_normalizeSeparators p) = _isRooted p.
Proof.
  split; [apply _normalizeSeparators_twice|].
  unfold _isRooted. by rewrite _normalizeSeparators_twice.
Qed.

(** X11. [_normalizeSeparators] gives the empty string for the empty
    string only. On win32 the result has no [/], and no two backslashes in
    a row except for one extra backslash in front (the UNC form);
    elsewhere it has no two [/] in a row. *)
Theorem normalizeSeparators_normal_form (p : string) :
  (_normalizeSeparators p = "" <-> p = "")
  /\ if win32 then
       free_of "/" (_normalizeSeparators p) = true
       /\ exists body,
            no_run "\" body = true
            /\ (_normalizeSeparators p = body
                \/ _normalizeSeparators p = String "\" body)
     else no_run "/" (_normalizeSeparators p) = true.
Proof.
  split; [apply _normalizeSeparators_empty|].
  unfold _normalizeSeparators. destruct win32; [|apply collapse_runs_no_run].
  set (p1 := replace_all "/" "\" p).
  assert (free_of "/" (collapse_runs "\" p1) = true) as Hfree.
  { apply collapse_runs_free, replace_all_free. done. }
  split.
  - destruct (test_unc p1); rewrite ?append_cons, append_nil_l; [|done].
    cbn [free_of]. by rewrite Hfree.
  - exists (collapse_runs "\" p1). split; [apply collapse_runs_no_run|].
    destruct (test_unc p1); rewrite ?append_cons, append_nil_l; eauto.
Qed.

Lemma starts_rooted_append (root s : string) :
  starts_rooted root = true -> starts_rooted (root +:+ s) = true.
Proof.
  destruct root as [|c root]; [done|]. rewrite append_cons.
  unfold starts_rooted. destruct win32; [|done].
  destruct (Ascii.eqb c "/" || Ascii.eqb c "\"); [done|]. simpl.
  destruct root as [|d root]; [done|]. rewrite append_cons.
  by destruct d as [[] [] [] [] [] [] [] []].
Qed.

(** X12. [_isRooted] throws for the empty string and for no other;
    [_ensureRooted] throws when the root or the path is empty and in no
    other case. *)
Theorem rooting_argument_checks (root p : string) :
  ((exists e, _isRooted p = Throw e) <-> p = "")
  /\ ((exists e, _ensureRooted root p = Throw e) <-> root = "" \/ p = "").
Proof.
  split.
  - split.
    + intros [e He]. destruct (decide (p = "")) as [|Hp]; [done|].
      rewrite _isRooted_spec in He by done. done.
    + intros ->. unfold _isRooted. rewrite (proj2 (_normalizeSeparators_empty "")) by done.
      rewrite decide_True by done. eauto.
  - split.
    + intros [e He].
      destruct (decide (root = "")) as [|Hroot]; [by left|].
      destruct (decide (p = "")) as [|Hp]; [by right|].
      destruct (_ensureRooted_returns root p Hroot Hp) as [r Hr]. congruence.
    + unfold _ensureRooted. intros [-> | ->].
      * rewrite decide_True by done. eauto.
      * destruct (decide (root = "")); [eauto|]. rewrite decide_True by done. eauto.
Qed.

(** X13. With a rooted root, what [_ensureRooted] returns is rooted, ends
    with the path it was given, and is left as it is when rooted
    again. *)
Theorem ensureRooted_gives_rooted (root p : string) :
  root <> "" ->
  p <> "" ->
  starts_rooted root = true ->
  exists r,
    _ensureRooted root p = Ret r
    /\ starts_rooted r = true
    /\ (exists prefix, r = prefix +:+ p)
    /\ _ensureRooted root r = Ret r.
Proof.
  intros Hroot Hp Hrooted.
  assert (forall r, r <> "" -> starts_rooted r = true -> _ensureRooted root r = Ret r)
    as Hfixed.
  { intros r Hr Hsr. unfold _ensureRooted.
    destruct (decide (root = "")); [done|]. destruct (decide (r = "")); [done|].
    rewrite _isRooted_spec by done. simpl. by rewrite Hsr. }
  destruct (starts_rooted p) eqn:Hsp.
  { exists p. split; [by apply Hfixed|]. split; [done|].
    split; [by exists ""|by apply Hfixed]. }
  unfold _ensureRooted at 1.
  destruct (decide (root = "")); [done|]. destruct (decide (p = "")); [done|].
  rewrite _isRooted_spec by done. simpl. rewrite Hsp.
  destruct (win32 && test_drive_only root);
    [|destruct (_endsWith root "/" || _)];
    eexists; (split; [done|]);
    (split; [rewrite ?append_assoc; by apply starts_rooted_append|]);
    (split; [eauto|]);
    (apply Hfixed; [|rewrite ?append_assoc; by apply starts_rooted_append]);
    rewrite ?append_assoc; repeat apply append_nonempty_r; done.
Qed.
End NormalForm.

(** ** More on [find] *)

Lemma pop_Some {A} (stack stack' : list A) (x : A) :
  pop stack = Some (x, stack') -> stack = stack' ++ [x].
Proof.
  unfold pop. destruct (rev stack) as [|y r] eqn:Hrev; [done|].
  intros [= -> <-]. rewrite <- (rev_involutive stack), Hrev. done.
Qed.

Section FindMore.
Context `{FileSystem}.

Lemma find_loop_reachable (root : string) (fuel : nat) :
  forall (stack : list _FindItem) (result : list string) (calls : list FsCall)
         (found : list string),
    Forall (fun item => reachable root (path item)) stack ->
    Forall (reachable root) result ->
    snd (find_loop fuel stack result calls) = Some (Ret found) ->
    Forall (reachable root) found.
Proof.
  induction fuel as [|fuel IH]; intros stack result calls found Hstack Hresult;
    simpl.
  - destruct (pop stack) as [[item stack']|]; [done|]. by intros [= <-].
  - destruct (pop stack) as [[item stack']|] eqn:Hpop; [|by intros [= <-]].
    apply pop_Some in Hpop as ->.
    apply Forall_app in Hstack as [Hstack Hitem].
    apply Forall_inv in Hitem.
    assert (Forall (reachable root) (result ++ [path item])) as Hresult'.
    { apply Forall_app. split; [done|]. repeat constructor. exact Hitem. }
    destruct (lstatSync (path item)) as [stats|err] eqn:Hstat; [|done].
    destruct (isDirectory stats) eqn:Hdir; [|by apply IH].
    destruct (readdirSync (path item)) as [names|err] eqn:Hnames; [|done].
    apply IH; [|done]. rewrite push_reversed_app.
    apply Forall_app. split; [done|].
    apply Forall_forall. intros child Hchild.
    apply list_elem_of_In, in_rev, in_map_iff in Hchild as (name & <- & Hname).
    simpl. by apply (reachable_entry root (path item) stats names);
      [| | | |apply list_elem_of_In].
Qed.

Lemma omap_lstat_snoc (calls : list FsCall) (q : string) :
  lstat_paths (calls ++ [Lstat q]) = lstat_paths calls ++ [q].
Proof. unfold lstat_paths. by rewrite omap_app. Qed.

Lemma omap_lstat_readdir (calls : list FsCall) (q : string) :
  lstat_paths (calls ++ [Readdir q]) = lstat_paths calls.
Proof. unfold lstat_paths. by rewrite omap_app, app_nil_r. Qed.

Lemma omap_readdir_snoc (calls : list FsCall) (q : string) :
  readdir_paths (calls ++ [Readdir q]) = readdir_paths calls ++ [q].
Proof. unfold readdir_paths. by rewrite omap_app. Qed.

Lemma omap_readdir_lstat (calls : list FsCall) (q : string) :
  readdir_paths (calls ++ [Lstat q]) = readdir_paths calls.
Proof. unfold readdir_paths. by rewrite omap_app, app_nil_r. Qed.

Lemma find_loop_call_count (fuel : nat) :
  forall (stack : list _FindItem) (result : list string) (calls : list FsCall)
         (found : list string),
    snd (find_loop fuel stack result calls) = Some (Ret found) ->
    exists new,
      found = result ++ new
      /\ lstat_paths (fst (find_loop fuel stack result calls))
         = lstat_paths calls ++ new
      /\ readdir_paths (fst (find_loop fuel stack result calls))
         = readdir_paths calls ++ filter (fun q => directory_at q = true) new.
Proof.
  induction fuel as [|fuel IH]; intros stack result calls found; simpl.
  - destruct (pop stack) as [[item stack']|]; [done|]. intros [= <-].
    exists []. by rewrite !app_nil_r.
  - destruct (pop stack) as [[item stack']|].
    2:{ intros [= <-]. exists []. by rewrite !app_nil_r. }
    destruct (lstatSync (path item)) as [stats|err] eqn:Hstat; [|done].
    destruct (isDirectory stats) eqn:Hdir.
    + destruct (readdirSync (path item)) as [names|err]; [|done].
      intros Hfound. destruct (IH _ _ _ _ Hfound) as (new & -> & Hl & Hr).
      exists (path item :: new). rewrite Hl, Hr.
      rewrite omap_lstat_readdir, omap_lstat_snoc.
      rewrite omap_readdir_snoc, omap_readdir_lstat.
      rewrite filter_cons_True by (unfold directory_at; by rewrite Hstat).
      by rewrite <- !app_assoc.
    + intros Hfound. destruct (IH _ _ _ _ Hfound) as (new & -> & Hl & Hr).
      exists (path item :: new). rewrite Hl, Hr.
      rewrite omap_lstat_snoc, omap_readdir_lstat.
      rewrite filter_cons_False
        by (unfold directory_at; rewrite Hstat, Hdir; done).
      by rewrite <- !app_assoc.
Qed.

(** X14. When the first [lstatSync] fails with a code other than ENOENT,
    [find] throws that exception itself, without the ["Failed find: "]
    wrapping, and makes no other call. *)
Theorem find_rethrows_first_error (fuel : nat) (findPath : string) (err : JsError) :
  findPath <> "" ->
  lstatSync (normalize findPath) = Throw err ->
  code err <> Some "ENOENT" ->
  find fuel findPath = ([Lstat (normalize findPath)], Some (Throw err)).
Proof.
  intros Hpath Hstat Hcode. unfold find.
  destruct (decide (findPath = "")); [done|]. rewrite Hstat.
  by destruct (decide (code err = Some "ENOENT")).
Qed.

(** X15. For every file system, every path [find] returns is the
    normalized root or is reached from it through entries that
    [readdirSync] lists for paths whose own status is that of a
    directory. *)
Theorem find_yields_reachable (fuel : nat) (findPath : string)
    (result : list string) (q : string) :
  snd (find fuel findPath) = Some (Ret result) ->
  q ∈ result ->
  reachable (normalize findPath) q.
Proof.
  unfold find. destruct (decide (findPath = "")).
  { intros [= <-] Hq. by apply elem_of_nil in Hq. }
  destruct (lstatSync (normalize findPath)) as [st|err].
  - pose proof (find_loop_reachable (normalize findPath) fuel
                  [new_FindItem (normalize findPath) 1] []
                  [Lstat (normalize findPath)]) as Hloop.
    destruct (find_loop _ _ _ _) as [calls [[found|e]|]]; simpl in *; try done.
    intros [= <-] Hq.
    assert (Forall (reachable (normalize findPath)) found) as Hall.
    { apply Hloop; [|done|done]. repeat constructor. }
    rewrite Forall_forall in Hall. by apply Hall.
  - destruct (decide (code err = Some "ENOENT")); [|done].
    intros [= <-] Hq. by apply elem_of_nil in Hq.
Qed.

(** X16. When [find] returns, it has called [lstatSync] once for the
    existence check and then once for each path of the result, in the
    order of the result, and [readdirSync] once for each path of the
    result that is a directory, in that order. *)
Theorem find_one_lstat_per_path (fuel : nat) (findPath : string) (st : Stats)
    (result : list string) :
  findPath <> "" ->
  lstatSync (normalize findPath) = Ret st ->
  snd (find fuel findPath) = Some (Ret result) ->
  lstat_paths (fst (find fuel findPath)) = normalize findPath :: result
  /\ readdir_paths (fst (find fuel findPath))
     = filter (fun q => directory_at q = true) result.
Proof.
  intros Hpath Hstat. unfold find.
  destruct (decide (findPath = "")); [done|]. rewrite Hstat.
  pose proof (find_loop_call_count fuel
                [new_FindItem (normalize findPath) 1] []
                [Lstat (normalize findPath)]) as Hloop.
  destruct (find_loop _ _ _ _) as [calls [[found|e]|]]; simpl in *; try done.
  intros [= <-]. destruct (Hloop found eq_refl) as (new & -> & Hl & Hr).
  by rewrite Hl, Hr.
Qed.
End FindMore.

(** ** More on [match] *)

Section MatchMore.
Context `{Host} `{Minimatch}.

Lemma match_pattern_skipped list patternRoot options map pattern :
  skipped options pattern ->
  match_pattern list patternRoot options map pattern = Ret map.
Proof.
  intros [Hblank|[Hcomment Hhash]]; unfold match_pattern.
  - by rewrite decide_True.
  - destruct (decide (trim pattern = "")); [done|].
    by rewrite _cloneMatchOptions_id, Hcomment, Hhash.
Qed.

Lemma fold_obj_delete_empty (keys : list string) :
  fold_left (fun map key => obj_delete key map) keys (∅ : JsObject) = ∅.
Proof.
  apply map_eq. intros k. rewrite fold_obj_delete_lookup, lookup_empty.
  by destruct (decide (k ∈ keys)).
Qed.

Lemma match_expanded_exclude_empty list patternRoot options pattern :
  match_expanded list patternRoot options false ∅ pattern = Ret ∅.
Proof.
  unfold match_expanded. destruct (decide (trim pattern = "")); [done|].
  destruct (root_pattern_returns patternRoot options (trim pattern)) as [r ->];
    [done|].
  simpl. by rewrite fold_obj_delete_empty.
Qed.

Lemma match_pattern_excluding_empty list patternRoot options pattern :
  skipped options pattern \/ excluding options pattern ->
  match_pattern list patternRoot options ∅ pattern = Ret ∅.
Proof.
  intros [Hskip|[Hnegate Hexclude]]; [by apply match_pattern_skipped|].
  unfold match_pattern. destruct (decide (trim pattern = "")); [done|].
  destruct (negb _ && _); [done|].
  rewrite _cloneMatchOptions_id, Hnegate. simpl. rewrite Hexclude.
  generalize (expand_braces options
                (substring_from (count_bangs (trim pattern)) (trim pattern))).
  intros expanded. induction expanded as [|e expanded IH]; [done|].
  simpl. by rewrite match_expanded_exclude_empty.
Qed.

Lemma match_pattern_applied list patternRoot options map pattern :
  nobrace options = true ->
  match_pattern list patternRoot options map pattern
  = Ret match applied_pattern patternRoot options pattern with
        | None => map
        | Some (true, rooted) =>
            fold_left (fun map key => obj_set key true map)
              (minimatch_match list rooted (locked options)) map
        | Some (false, rooted) =>
            fold_left (fun map key => obj_delete key map)
              (minimatch_match list rooted (locked options)) map
        end.
Proof.
  intros Hbrace. unfold match_pattern, applied_pattern.
  destruct (decide (trim pattern = "")); [done|].
  rewrite _cloneMatchOptions_id.
  destruct (negb (nocomment options) && _); [done|].
  unfold expand_braces. rewrite Hbrace.
  assert (forall isInclude stripped,
    for_of (match_expanded list patternRoot (locked options) isInclude)
           [stripped] map
    = Ret (if decide (trim stripped = "") then map
           else match root_pattern patternRoot (locked options) (trim stripped) with
                | Ret rooted =>
                    if isInclude
                    then fold_left (fun map key => obj_set key true map)
                           (minimatch_match list rooted (locked options)) map
                    else fold_left (fun map key => obj_delete key map)
                           (minimatch_match list rooted (locked options)) map
                | Throw _ => map
                end)) as Hone.
  { intros isInclude stripped. simpl. unfold match_expanded.
    destruct (decide (trim stripped = "")); [done|].
    destruct (root_pattern_returns patternRoot (locked options) (trim stripped))
      as [r ->]; [done|].
    simpl. by destruct isInclude. }
  destruct (nonegate options); cbn [negb]; rewrite Hone;
    (destruct (decide (trim _ = "")); [done|]);
    (destruct (root_pattern _ _ _); [|done]);
    by destruct (isIncludePattern _ _).
Qed.

Lemma match_result_membership list patterns patternRoot options result map :
  for_of (match_pattern list patternRoot
            (default _getDefaultMatchOptions options)) patterns ∅ = Ret map ->
  match_ list (Patterns patterns) patternRoot options = Ret result ->
  forall item, item ∈ result <-> item ∈ list /\ is_Some (map !! item).
Proof.
  intros Hmap. unfold match_. rewrite Hmap. simpl.
  destruct (map !! "hasOwnProperty") as [v|] eqn:Hown.
  - destruct list as [|x list].
    + intros [= <-] item. split; [by intros ?%elem_of_nil|].
      by intros [?%elem_of_nil _].
    + by rewrite array_filter_not_a_function by (eauto || done).
  - rewrite array_filter_hasOwnProperty by done. intros [= <-] item.
    rewrite list_elem_of_filter. tauto.
Qed.

(** X17. For the empty list, what [match] returns is the empty list,
    whatever the patterns, the root and the options: also with [nonull],
    where [minimatch.match] answers with the pattern itself. *)
Theorem match_empty_list patterns patternRoot options result :
  match_ [] patterns patternRoot options = Ret result ->
  result = [].
Proof.
  unfold match_.
  destruct (for_of _ _ _) as [map|e]; simpl; [|done].
  by intros [= <-].
Qed.

(** X18. A pattern that is empty once trimmed, or that starts with [#]
    while comments are on, can be put anywhere among the patterns, or
    removed, without changing what [match] returns or throws. *)
Theorem match_passes_over_blank_and_comments list before pattern after
    patternRoot options :
  skipped (default _getDefaultMatchOptions options) pattern ->
  match_ list (Patterns (before ++ pattern :: after)) patternRoot options
  = match_ list (Patterns (before ++ after)) patternRoot options.
Proof.
  intros Hskip. unfold match_. rewrite !for_of_app.
  destruct (for_of _ before ∅) as [map|e]; simpl; [|done].
  by rewrite match_pattern_skipped.
Qed.

(** X19. When every pattern is passed over or is an exclude pattern, what
    [match] returns is the empty list: nothing is included unless an
    include pattern says so. This covers the empty list of patterns. *)
Theorem match_exclude_only_is_empty list patterns patternRoot options result :
  Forall (fun pattern =>
            skipped (default _getDefaultMatchOptions options) pattern
            \/ excluding (default _getDefaultMatchOptions options) pattern)
         patterns ->
  match_ list (Patterns patterns) patternRoot options = Ret result ->
  result = [].
Proof.
  intros Hall. unfold match_.
  assert (forall map,
            for_of (match_pattern list patternRoot
                      (default _getDefaultMatchOptions options)) patterns ∅
            = Ret map -> map = ∅) as Hempty.
  { induction Hall as [|pattern patterns Hp _ IH]; intros map; simpl.
    - by intros [= <-].
    - rewrite match_pattern_excluding_empty by done. apply IH. }
  destruct (for_of _ patterns ∅) as [map|e]; simpl; [|done].
  rewrite (Hempty map eq_refl).
  rewrite array_filter_hasOwnProperty by done. intros [= <-].
  induction list as [|item list IH]; [done|].
  rewrite filter_cons_False; [done|].
  rewrite lookup_empty. by intros [? ?].
Qed.

(** X20. With [nobrace] on, a further pattern decides for the paths it
    matches and leaves the others as they were: a path other than
    ["__proto__"] is in the result with the pattern appended exactly when
    it is in the list and, if [minimatch.match] returns it for the
    pattern, the pattern is an include pattern; if not, it was in the
    result before. *)
Theorem match_last_pattern_decides list patterns pattern patternRoot options
    result result' isInclude rooted item :
  nobrace (default _getDefaultMatchOptions options) = true ->
  applied_pattern patternRoot (default _getDefaultMatchOptions options) pattern
  = Some (isInclude, rooted) ->
  match_ list (Patterns patterns) patternRoot options = Ret result ->
  match_ list (Patterns (patterns ++ [pattern])) patternRoot options = Ret result' ->
  item <> "__proto__" ->
  item ∈ result'
  <-> item ∈ list
      /\ if decide (item ∈ minimatch_match list rooted
                      (locked (default _getDefaultMatchOptions options)))
         then isInclude = true
         else item ∈ result.
Proof.
  intros Hbrace Happlied Hresult Hresult' Hitem.
  set (o := default _getDefaultMatchOptions options) in *.
  destruct (for_of_returns (match_pattern list patternRoot o) patterns ∅)
    as [map Hmap].
  { intros. apply match_pattern_returns. }
  assert (for_of (match_pattern list patternRoot o) (patterns ++ [pattern]) ∅
          = match_pattern list patternRoot o map pattern) as Hlast.
  { rewrite for_of_app, Hmap. simpl.
    by destruct (match_pattern list patternRoot o map pattern). }
  rewrite match_pattern_applied in Hlast by done.
  rewrite Happlied in Hlast.
  pose proof (match_result_membership _ _ _ _ _ _ Hlast Hresult' item) as ->.
  pose proof (match_result_membership _ _ _ _ _ _ Hmap Hresult item) as Hbefore.
  destruct isInclude.
  - rewrite fold_obj_set_lookup.
    destruct (decide (item ∈ minimatch_match list rooted (locked o))) as [Hin|Hout].
    + rewrite decide_True by done.
      split; intros [? _]; (split; [done|eauto]).
    + rewrite decide_False by tauto. rewrite Hbefore. tauto.
  - rewrite fold_obj_delete_lookup.
    destruct (decide (item ∈ minimatch_match list rooted (locked o))) as [Hin|Hout].
    + split; [by intros [_ [? ?]]|by intros [_ ?]].
    + rewrite Hbefore. tauto.
Qed.
End MatchMore.

(** ** [cp] *)

(** X21. [cp] returns when [shelljs] reports no error or
    [continueOnError] is set, and otherwise throws [Failed cp: ] followed
    by the error of the shell; an empty options string is treated as no
    options. *)
Theorem cp_reports_shell_error `{Shell} (source dest : string)
    (options : option string) (continueOnError : bool) :
  let se := shell_cp (if truthy options then options else None) source dest in
  (cp source dest options continueOnError = Ret tt
   <-> truthy se = false \/ continueOnError = true)
  /\ (forall e, cp source dest options continueOnError = Throw e ->
      e = new_Error ("Failed cp: " +:+ default "" se))
  /\ cp source dest (Some "") continueOnError
     = cp source dest None continueOnError.
Proof.
  simpl. unfold cp, _checkShell.
  destruct (truthy options);
    (destruct (truthy (shell_cp _ source dest)); destruct continueOnError; simpl;
     repeat split; try done; try tauto; try (by intros [|]);
     try (by intros e [= <-])).
Qed.

(** ** Examples for the further properties *)

Lemma plain_process_safe (k n : nat) :
  k < 1000 -> n <= k -> @failsafe_reached plain_process n = false.
Proof. intros Hk Hn. apply Nat.leb_gt. lia. Qed.

Lemma mkdirP_makes_missing_chain_witness :
  @mkdirP server_fs plain_process (table_dirs []) 3 "/srv/app/logs/today"
  = ([Probe "/srv/app/logs/today"; Probe "/srv/app/logs"; Probe "/srv/app";
      Make "/srv/app/logs"; Make "/srv/app/logs/today"],
     Some (Ret tt)).
Proof.
  apply (@mkdirP_makes_missing_chain server_fs plain_process (table_dirs []) 3 2
           "/srv/app/logs/today" {| ftype := Directory |}).
  - discriminate.
  - repeat apply Forall_cons_2; try apply Forall_nil_2;
      (split; [eexists; split; reflexivity|discriminate]).
  - reflexivity.
  - reflexivity.
  - intros n Hn. apply (plain_process_safe 2); lia.
  - intros i d _. reflexivity.
  - lia.
Defined.

Lemma mkdirP_partial_on_failure_witness :
  @mkdirP server_fs plain_process (table_dirs ["/srv/app/logs/today"]) 3
    "/srv/app/logs/today"
  = ([Probe "/srv/app/logs/today"; Probe "/srv/app/logs"; Probe "/srv/app";
      Make "/srv/app/logs"; Make "/srv/app/logs/today"],
     Some (Throw (new_Error
       "Unable to create directory /srv/app/logs/today . EACCES: permission denied, mkdir '/srv/app/logs/today'"))).
Proof.
  apply (@mkdirP_partial_on_failure server_fs plain_process
           (table_dirs ["/srv/app/logs/today"]) 3 2 1
           "/srv/app/logs/today" "/srv/app/logs/today" {| ftype := Directory |}
           {| code := Some "EACCES"; epath := Some "/srv/app/logs/today";
              message := "EACCES: permission denied, mkdir '/srv/app/logs/today'" |}).
  - discriminate.
  - repeat apply Forall_cons_2; try apply Forall_nil_2;
      (split; [eexists; split; reflexivity|discriminate]).
  - reflexivity.
  - reflexivity.
  - intros n Hn. apply (plain_process_safe 2); lia.
  - intros [|[|i]] d Hd; [|discriminate Hd..].
    injection Hd as <-. reflexivity.
  - reflexivity.
  - reflexivity.
  - lia.
Defined.

Lemma mkdirP_conflicting_file_witness :
  @mkdirP server_fs plain_process (table_dirs []) 1 "/etc/hosts"
  = ([Probe "/etc/hosts"],
     Some (Throw (new_Error
       "Unable to create directory /etc/hosts. Conflicting file exists: /etc/hosts"))).
Proof.
  apply (@mkdirP_conflicting_file server_fs plain_process (table_dirs []) 1 0
           "/etc/hosts" {| ftype := Regular |}).
  - discriminate.
  - apply Forall_nil_2.
  - reflexivity.
  - reflexivity.
  - intros n Hn. apply (plain_process_safe 0); lia.
  - lia.
Defined.

(** Below the file, [fs.statSync] answers [ENOTDIR], and [mkdirP] throws
    that error as it is after the one probe. *)
Example mkdirP_below_file :
  @mkdirP server_fs plain_process (table_dirs []) 2 "/etc/hosts/x"
  = ([Probe "/etc/hosts/x"], Some (Throw (ENOTDIR "stat" "/etc/hosts/x"))).
Proof. reflexivity. Qed.

Lemma mkdirP_missing_root_witness :
  @mkdirP server_fs plain_process (table_dirs []) 2 "Z:\data"
  = ([Probe "Z:\data"; Probe "Z:\"],
     Some (Throw (new_Error
       "Unable to create directory Z:\data. Root directory does not exist: Z:\"))).
Proof.
  apply (@mkdirP_missing_root server_fs plain_process (table_dirs []) 2 1
           "Z:\data" (ENOENT "stat" "Z:\")).
  - discriminate.
  - repeat apply Forall_cons_2; try apply Forall_nil_2;
      (split; [eexists; split; reflexivity|discriminate]).
  - reflexivity.
  - reflexivity.
  - reflexivity.
  - intros n Hn. apply (plain_process_safe 1); lia.
  - lia.
Defined.

Lemma mkdirP_other_stat_error_witness :
  @mkdirP sealed_fs plain_process (table_dirs []) 1 "/srv/app"
  = ([Probe "/srv/app"], Some (Throw (EPERM "/srv/app"))).
Proof.
  apply (@mkdirP_other_stat_error sealed_fs plain_process (table_dirs []) 1 0
           "/srv/app" (EPERM "/srv/app")).
  - discriminate.
  - apply Forall_nil_2.
  - reflexivity.
  - discriminate.
  - intros n Hn. apply (plain_process_safe 0); lia.
  - lia.
Defined.

Lemma mkdirP_failsafe_terminates_witness :
  snd (@mkdirP empty_fs plain_process endless_dirs 1001 "work") <> None
  /\ length (probes (fst (@mkdirP empty_fs plain_process endless_dirs 1001
                            "work"))) <= 1000.
Proof.
  apply (@mkdirP_failsafe_terminates empty_fs plain_process endless_dirs
           1001 1000 "work").
  - reflexivity.
  - lia.
Defined.

Lemma ensureRooted_gives_rooted_witness :
  exists r,
    @_ensureRooted windows "C:\work" "src\*.ts" = Ret r
    /\ @starts_rooted windows r = true
    /\ (exists prefix, r = prefix +:+ "src\*.ts")
    /\ @_ensureRooted windows "C:\work" r = Ret r.
Proof.
  apply (@ensureRooted_gives_rooted windows "C:\work" "src\*.ts").
  - discriminate.
  - discriminate.
  - reflexivity.
Defined.

Lemma find_rethrows_first_error_witness :
  @find sealed_fs 5 "/srv" = ([Lstat "/srv"], Some (Throw (EPERM "/srv"))).
Proof.
  apply (@find_rethrows_first_error sealed_fs 5 "/srv" (EPERM "/srv")).
  - discriminate.
  - reflexivity.
  - discriminate.
Defined.

Lemma find_yields_reachable_witness :
  @reachable project_fs "root" "root/sub/f3.txt".
Proof.
  apply (@find_yields_reachable project_fs 6 "root"
           ["root"; "root/sub"; "root/sub/f3.txt"; "root/f1.txt";
            "root/f2.log"; "root/link"]).
  - reflexivity.
  - do 2 apply list_elem_of_further. apply list_elem_of_here.
Defined.

Lemma find_one_lstat_per_path_witness :
  lstat_paths (fst (@find project_fs 6 "root"))
  = ["root"; "root"; "root/sub"; "root/sub/f3.txt"; "root/f1.txt";
     "root/f2.log"; "root/link"]
  /\ readdir_paths (fst (@find project_fs 6 "root")) = ["root"; "root/sub"].
Proof.
  apply (@find_one_lstat_per_path project_fs 6 "root" {| ftype := Directory |}
           ["root"; "root/sub"; "root/sub/f3.txt"; "root/f1.txt";
            "root/f2.log"; "root/link"]).
  - discriminate.
  - reflexivity.
  - reflexivity.
Defined.

Lemma match_passes_over_blank_and_comments_witness :
  @match_ posix glob_minimatch ["a.txt"; "b.log"]
    (Patterns (["*.txt"] ++ "# logs are left out" :: ["!a.txt"])) None None
  = @match_ posix glob_minimatch ["a.txt"; "b.log"]
      (Patterns (["*.txt"] ++ ["!a.txt"])) None None.
Proof.
  apply (@match_passes_over_blank_and_comments posix glob_minimatch).
  right. split; reflexivity.
Defined.

Lemma match_empty_list_witness :
  @match_ posix glob_minimatch [] (Patterns ["*.txt"; "!a.txt"]) None
    (Some (@with_nonull posix true))
  = Ret []
  /\ @minimatch_match glob_minimatch [] "*.txt"
       (@with_nonull posix true)
     = ["*.txt"].
Proof.
  split; [|reflexivity].
  assert (exists result,
            @match_ posix glob_minimatch [] (Patterns ["*.txt"; "!a.txt"]) None
              (Some (@with_nonull posix true))
            = Ret result) as [result Hresult].
  { eexists. reflexivity. }
  rewrite Hresult. f_equal.
  apply (@match_empty_list posix glob_minimatch (Patterns ["*.txt"; "!a.txt"])
           None (Some (@with_nonull posix true))).
  exact Hresult.
Defined.

Lemma match_exclude_only_is_empty_witness :
  @match_ posix glob_minimatch ["a.txt"; "b.log"]
    (Patterns ["!*.log"; "   "; "# nothing is included"; "!!!a.txt"]) None None
  = Ret [].
Proof.
  assert (exists result,
            @match_ posix glob_minimatch ["a.txt"; "b.log"]
              (Patterns ["!*.log"; "   "; "# nothing is included"; "!!!a.txt"])
              None None
            = Ret result) as [result Hresult].
  { eexists. reflexivity. }
  rewrite Hresult. f_equal.
  apply (@match_exclude_only_is_empty posix glob_minimatch ["a.txt"; "b.log"]
           ["!*.log"; "   "; "# nothing is included"; "!!!a.txt"] None None).
  - repeat apply Forall_cons_2; try apply Forall_nil_2.
    + right. split; reflexivity.
    + left. left. reflexivity.
    + left. right. split; reflexivity.
    + right. split; reflexivity.
  - exact Hresult.
Defined.

Lemma match_last_pattern_decides_witness :
  "b.txt" ∈ ["a.txt"; "b.txt"; "c.log"]
  /\ ("a.txt" ∈ ["a.txt"]
      <-> "a.txt" ∈ ["a.txt"; "b.txt"; "c.log"]
          /\ if decide ("a.txt" ∈ @minimatch_match glob_minimatch
                          ["a.txt"; "b.txt"; "c.log"] "b.txt"
                          (locked (@_getDefaultMatchOptions posix)))
             then false = true
             else "a.txt" ∈ ["a.txt"; "b.txt"]).
Proof.
  split; [apply list_elem_of_further, list_elem_of_here|].
  apply (@match_last_pattern_decides posix glob_minimatch
           ["a.txt"; "b.txt"; "c.log"] ["*.txt"] "!b.txt" None None
           ["a.txt"; "b.txt"] ["a.txt"] false "b.txt" "a.txt").
  - reflexivity.
  - reflexivity.
  - reflexivity.
  - reflexivity.
  - discriminate.
Defined.
